(** * Collection & Receivables Dashboard: the tabular derivation pipeline

    A shallow embedding of [finance_titan3.py]: the load / validate /
    coerce / derive / filter block (lines 37-105) and the derived columns
    of the "Executive Performance" page (lines 154-162).

    The script is written against pandas.  A [DataFrame] is modelled by
    its column labels and its rows, a row being a finite map from column
    label to cell; a [Series] is the list of the cells of one column, in
    row order.  Numbers are exact rationals ([Q]): the rounding, the
    infinities and the signed zero of float64 are outside this model.
    Spreadsheet cells are numbers, text or blank (booleans and dates are
    not modelled). *)

From Stdlib Require Import QArith Lqa Ascii String Sorted.
From stdpp Require Import base option list strings gmap.

Local Open Scope string_scope.
#[local] Set Default Proof Using "Type".

(** ** Cells and series *)

Inductive cell : Type :=
  | CNum (q : Q)          (* a number *)
  | CStr (s : string)     (* text *)
  | CNaN.                 (* blank / NaN *)

Abbreviation Series := (list cell).

(** Value equality of two cells, as [==] on Python objects decides it:
    NaN is different from everything, itself included. *)
Definition cell_eqb (x y : cell) : bool :=
  match x, y with
  | CNum a, CNum b => Qeq_bool a b
  | CStr a, CStr b => String.eqb a b
  | _, _ => false
  end.

Definition isna (c : cell) : bool :=
  match c with CNaN => true | _ => false end.

Definition is_str (c : cell) : bool :=
  match c with CStr _ => true | _ => false end.

(** ** Outcomes of a script run

    [st.error]/[st.warning] followed by [st.stop()] ends the run with a
    message on the page; an exception nobody catches ends it with a
    traceback. *)

Inductive notice : Type :=
  | st_error (msg : string)
  | st_warning (msg : string).

Inductive exn : Type :=
  | KeyError (label : string)
  | TypeError.

Inductive outcome (A : Type) : Type :=
  | Done (a : A)
  | Stopped (n : notice)
  | Raised (e : exn).

Arguments Done {A} a.
Arguments Stopped {A} n.
Arguments Raised {A} e.

#[global] Instance outcome_ret : MRet outcome := λ A a, Done a.
#[global] Instance outcome_bind : MBind outcome := λ A B f m,
  match m with
  | Done a => f a
  | Stopped n => Stopped n
  | Raised e => Raised e
  end.
#[global] Instance outcome_fmap : FMap outcome := λ A B f m,
  match m with
  | Done a => Done (f a)
  | Stopped n => Stopped n
  | Raised e => Raised e
  end.

(** ** Data frames *)

Record DataFrame : Type := mkDataFrame {
  columns : list string;
  rows : list (gmap string cell)
}.

(** The cell of a row under a label; a label the row does not carry reads
    as NaN. *)
Definition cell_of (r : gmap string cell) (c : string) : cell :=
  default CNaN (r !! c).

(** The rows of a frame as label/cell pairs in column order, as
    [df.to_dict("records")] lists them. *)
Definition records (df : DataFrame) : list (list (string * cell)) :=
  (λ r, (λ c, (c, cell_of r c)) <$> columns df) <$> rows df.

(** [df[c]]: a missing label raises [KeyError]. *)
Definition get_col (df : DataFrame) (c : string) : outcome Series :=
  if decide (c ∈ columns df)
  then Done ((λ r, cell_of r c) <$> rows df)
  else Raised (KeyError c).

(** [df[c] = s]: the series is aligned on the row positions (a position
    the series lacks gets NaN); a new label is appended to the columns. *)
Definition add_column (cs : list string) (c : string) : list string :=
  if decide (c ∈ cs) then cs else cs ++ [c].

Definition set_col (df : DataFrame) (c : string) (s : Series) : DataFrame :=
  {| columns := add_column (columns df) c;
     rows := imap (λ i r, <[c := default CNaN (s !! i)]> r) (rows df) |}.

(** [df[c] = v] for a scalar [v]: broadcast to every row. *)
Definition set_scalar (df : DataFrame) (c : string) (v : cell) : DataFrame :=
  set_col df c (replicate (length (rows df)) v).

(** [df[mask]]: the rows at which the boolean series is true. *)
Fixpoint select_rows (mask : list bool) (rs : list (gmap string cell))
  : list (gmap string cell) :=
  match mask, rs with
  | b :: mask', r :: rs' =>
      if b then r :: select_rows mask' rs' else select_rows mask' rs'
  | _, _ => []
  end.

Definition boolean_index (df : DataFrame) (mask : list bool) : DataFrame :=
  {| columns := columns df; rows := select_rows mask (rows df) |}.

(** [df.empty]: some axis has length 0. *)
Definition empty (df : DataFrame) : bool :=
  match columns df, rows df with
  | [], _ | _, [] => true
  | _, _ => false
  end.

(** ** Column labels: [df.columns.str.strip()] *)

(** White space that [str.strip] removes, within ASCII. *)
Definition is_space (a : ascii) : bool :=
  let n := nat_of_ascii a in
  ((9 <=? n)%nat && (n <=? 13)%nat) || ((28 <=? n)%nat && (n <=? 32)%nat).

Fixpoint lstrip (s : string) : string :=
  match s with
  | String a s' => if is_space a then lstrip s' else s
  | EmptyString => EmptyString
  end.

Fixpoint rstrip (s : string) : string :=
  match s with
  | String a s' =>
      match rstrip s' with
      | EmptyString => if is_space a then EmptyString else String a EmptyString
      | t => String a t
      end
  | EmptyString => EmptyString
  end.

Definition strip (s : string) : string := rstrip (lstrip s).

(** The labels are trimmed, and the cells follow their labels.  Labels
    are taken to stay distinct after trimming, as [read_excel] delivers
    them. *)
Definition strip_columns (df : DataFrame) : DataFrame :=
  {| columns := strip <$> columns df;
     rows := (λ r : gmap string cell, kmap (M2 := gmap string) strip r)
               <$> rows df |}.

(** ** Sub-frames: [df[cols]], [.apply], [.fillna], [df[cols] = sub] *)

(** The row of the sub-frame: the cells under the chosen labels. *)
Definition restrict (cols : list string) (r : gmap string cell)
  : gmap string cell :=
  list_to_map ((λ c, (c, cell_of r c)) <$> cols).

(** [df[cols]]: the first label that is not a column raises [KeyError]. *)
Definition get_cols (df : DataFrame) (cols : list string) : outcome DataFrame :=
  match filter (λ c, c ∉ columns df) cols with
  | c :: _ => Raised (KeyError c)
  | [] => Done {| columns := cols; rows := restrict cols <$> rows df |}
  end.

(** The cells of a column that is known to be there. *)
Definition col_values (df : DataFrame) (c : string) : Series :=
  (λ r, cell_of r c) <$> rows df.

(** [df.apply(f)]: [f] is applied to every column in turn. *)
Definition apply (f : Series → Series) (df : DataFrame) : DataFrame :=
  foldl (λ d c, set_col d c (f (col_values d c))) df (columns df).

(** [df[cols] = sub], column by column. *)
Definition set_cols (df : DataFrame) (sub : DataFrame) : DataFrame :=
  foldl (λ d c, set_col d c (col_values sub c)) df (columns sub).

Definition fillna_cell (v : Q) (c : cell) : cell :=
  match c with CNaN => CNum v | _ => c end.

Definition fillna (v : Q) (s : Series) : Series := fillna_cell v <$> s.

Definition fillna_frame (v : Q) (df : DataFrame) : DataFrame :=
  {| columns := columns df;
     rows := (λ r : gmap string cell, fillna_cell v <$> r) <$> rows df |}.

(** ** Row sums: [df.sum(axis=1)]

    NaN cells are skipped ([skipna] is on by default); text cannot be
    added to a number. *)

Definition Qsum (l : list Q) : Q := foldl Qplus 0%Q l.

Fixpoint numbers (s : list cell) : outcome (list Q) :=
  match s with
  | [] => Done []
  | CNum q :: s' => l ← numbers s'; mret (q :: l)
  | CNaN :: s' => numbers s'
  | CStr _ :: _ => Raised TypeError
  end.

Definition row_sum (cols : list string) (r : gmap string cell) : outcome cell :=
  l ← numbers (cell_of r <$> cols); mret (CNum (Qsum l)).

Definition sum_axis1 (df : DataFrame) : outcome Series :=
  mapM (row_sum (columns df)) (rows df).

(** ** Element-wise operations on series *)

(** [s > v]: NaN compares false, text against a number raises. *)
Definition cell_gt (v : Q) (c : cell) : outcome bool :=
  match c with
  | CNum q => Done (QMicromega.Qlt_bool v q)
  | CNaN => Done false
  | CStr _ => Raised TypeError
  end.

Definition series_gt (s : Series) (v : Q) : outcome (list bool) :=
  mapM (cell_gt v) s.

(** [np.where(cond, a, b)] *)
Definition np_where (cond : list bool) (a b : Series) : Series :=
  zip_with (λ (c : bool) (xy : cell * cell), if c then xy.1 else xy.2)
           cond (zip a b).

(** [s == v] *)
Definition series_eq (s : Series) (v : cell) : list bool :=
  (λ c, cell_eqb c v) <$> s.

(** Arithmetic of two cells: NaN propagates, text raises. *)
Definition cell_arith (op : Q → Q → Q) (x y : cell) : outcome cell :=
  match x, y with
  | CStr _, _ | _, CStr _ => Raised TypeError
  | CNum a, CNum b => Done (CNum (op a b))
  | _, _ => Done CNaN
  end.

Fixpoint series_arith (op : Q → Q → Q) (a b : Series) : outcome Series :=
  match a, b with
  | x :: a', y :: b' =>
      z ← cell_arith op x y; s ← series_arith op a' b'; mret (z :: s)
  | _, _ => Done []
  end.

(** [a / b].  A zero divisor would give an infinity or NaN in float64,
    which [Q] does not have; the script replaces every zero divisor by
    NaN before it divides, so that case is given NaN here. *)
Definition Qdiv_float (a b : Q) : cell :=
  if Qeq_bool b 0 then CNaN else CNum (a / b)%Q.

Definition cell_div (x y : cell) : outcome cell :=
  match x, y with
  | CStr _, _ | _, CStr _ => Raised TypeError
  | CNum a, CNum b => Done (Qdiv_float a b)
  | _, _ => Done CNaN
  end.

Fixpoint series_div (a b : Series) : outcome Series :=
  match a, b with
  | x :: a', y :: b' =>
      z ← cell_div x y; s ← series_div a' b'; mret (z :: s)
  | _, _ => Done []
  end.

(** [s * k] for a number [k]; a text cell is left out of the model
    (Python would repeat it), the script never multiplies one. *)
Definition cell_mul_scalar (k : Q) (x : cell) : outcome cell :=
  match x with
  | CNum a => Done (CNum (a * k)%Q)
  | CNaN => Done CNaN
  | CStr _ => Raised TypeError
  end.

Definition series_mul_scalar (s : Series) (k : Q) : outcome Series :=
  mapM (cell_mul_scalar k) s.

(** [s.replace(0, np.nan)] *)
Definition replace_zero_nan_cell (c : cell) : cell :=
  match c with
  | CNum q => if Qeq_bool q 0 then CNaN else c
  | _ => c
  end.

Definition replace_zero_nan (s : Series) : Series :=
  replace_zero_nan_cell <$> s.

(** [s.dropna()] *)
Definition dropna (s : Series) : Series := filter (λ c, isna c = false) s.

(** [s.unique()]: the distinct values, in order of first appearance. *)
Fixpoint unique_from (seen : list cell) (s : Series) : Series :=
  match s with
  | [] => []
  | x :: s' =>
      if existsb (cell_eqb x) seen then unique_from seen s'
      else x :: unique_from (x :: seen) s'
  end.

Definition unique (s : Series) : Series := unique_from [] s.

(** ** [sorted]: Python orders numbers with numbers and text with text;
    comparing one with the other raises [TypeError]. *)

Definition cell_lt (x y : cell) : outcome bool :=
  match x, y with
  | CNum a, CNum b => Done (QMicromega.Qlt_bool a b)
  | CStr a, CStr b => Done (String.ltb a b)
  | CStr _, _ | _, CStr _ => Raised TypeError
  | _, _ => Done false
  end.

Fixpoint insert_sorted (x : cell) (l : list cell) : outcome (list cell) :=
  match l with
  | [] => Done [x]
  | y :: l' =>
      b ← cell_lt x y;
      if b : bool then Done (x :: y :: l')
      else (l'' ← insert_sorted x l'; mret (y :: l''))
  end.

(** Elements are inserted from left to right, each one after the elements
    it is not smaller than, as a stable sort does. *)
Fixpoint sort_into (acc l : list cell) : outcome (list cell) :=
  match l with
  | [] => Done acc
  | x :: l' => acc' ← insert_sorted x acc; sort_into acc' l'
  end.

Definition sorted (l : list cell) : outcome (list cell) := sort_into [] l.

(** ** The script *)

(** An uploaded workbook: its sheets by name, as [pd.read_excel] returns
    them. *)
Record state : Type := mkState {
  uploaded_file : option (gmap string DataFrame);
  month_input : string;
  page : string;
  exec_choice : nat;          (* the entry picked in the executive selector *)
  ar_df : DataFrame;
  exec_df : DataFrame;
  inv_df : DataFrame
}.

Definition aging_cols : list string :=
  ["0-30"; "31-60"; "61-90"; "91-120";
   "121-150"; "151-180"; "181-365"; "Above 365"].

Definition required_ar_cols : list string :=
  ["Customer Name"; "Executive Name"; "Amount"] ++ aging_cols.

Definition over_90_cols : list string :=
  ["91-120"; "121-150"; "151-180"; "181-365"; "Above 365"].

(** The columns lines 80-90 add. *)
Definition derived_labels : list string :=
  ["Aging Sum"; "Total Outstanding"; ">90 Days"].

(** What the executive filter is to produce from a frame: the same
    columns, exactly the rows whose "Executive Name" is the chosen name, in
    their order; with the rows it drops they make up the frame. *)
#[global] Instance Q_eq_dec : EqDecision Q.
Proof. solve_decision. Defined.
#[global] Instance cell_eq_dec : EqDecision cell.
Proof. solve_decision. Defined.

Definition is_filter_of (name : string) (df df' : DataFrame) : Prop :=
  columns df' = columns df ∧
  rows df' =
    filter (λ r, cell_of r "Executive Name" = CStr name) (rows df) ∧
  rows df' ++ filter (λ r, cell_of r "Executive Name" ≠ CStr name) (rows df)
    ≡ₚ rows df.

(** Lines 158-162 read on one row whose two amounts are numbers or blank:
    NaN propagates through the arithmetic. *)
Definition nan_arith (op : Q → Q → Q) (x y : cell) : cell :=
  match x, y with
  | CNum a, CNum b => CNum (op a b)
  | _, _ => CNaN
  end.

Definition nan_div (x y : cell) : cell :=
  match x, y with
  | CNum a, CNum b => Qdiv_float a b
  | _, _ => CNaN
  end.

Definition nan_mul_scalar (k : Q) (x : cell) : cell :=
  match x with
  | CNum a => CNum (a * k)%Q
  | _ => CNaN
  end.

Definition perf_row (r : gmap string cell) : gmap string cell :=
  let r :=
    <["Pending" := nan_arith Qminus (cell_of r "Target Amount")
                                    (cell_of r "Actual Collected")]> r in
  <["Achievement %" :=
      fillna_cell 0
        (nan_mul_scalar 100
           (nan_div (cell_of r "Actual Collected")
                    (replace_zero_nan_cell (cell_of r "Target Amount"))))]> r.

(** A series that holds only texts. *)
Definition all_text (s : Series) : Prop := ∀ c, c ∈ s → ∃ n, c = CStr n.

(** [st.selectbox(label, options)]: the option the user picked, the first
    one when nothing was picked. *)
Definition selectbox (options : list cell) (choice : nat) : cell :=
  default (default CNaN (head options)) (options !! choice).

(** A reader of unsigned decimal integers ("120" reads as 120), one
    instance of the numeral reader the pipeline is given; the examples run
    the pipeline with it. *)
Fixpoint read_digits (acc : Z) (s : string) : option Z :=
  match s with
  | EmptyString => Some acc
  | String a s' =>
      let n := Z.of_nat (nat_of_ascii a) in
      if ((48 <=? n) && (n <=? 57))%Z
      then read_digits (10 * acc + (n - 48))%Z s'
      else None
  end.

Definition parse_digits (s : string) : option Q :=
  match s with
  | EmptyString => None
  | _ => inject_Z <$> read_digits 0 s
  end.

(** No cell is smaller than the one before it. *)
Definition ascending (l : list cell) : Prop :=
  Sorted (λ a b, cell_lt b a = Done false) l.

(** The number under a label, and rows in descending order of it. *)
Definition key (by_ : string) (r : gmap string cell) : Q :=
  match cell_of r by_ with CNum q => q | _ => 0%Q end.

Definition descending (by_ : string) (l : list (gmap string cell)) : Prop :=
  StronglySorted (λ a b, (key by_ b <= key by_ a)%Q) l.

(** The numbers of a series, blanks and text apart. *)
Definition nums (s : Series) : list Q :=
  omap (λ c, match c with CNum q => Some q | _ => None end) s.

(** ** The pages

    What each page computes from the frames the pipeline has left in the
    state; the calls that only draw (metrics, charts, tables) are left
    out. *)

(** [s.sum()]: blanks are skipped and a text among numbers raises.  (A
    series of texts alone, which pandas joins into one text, has no total
    here either; the properties below are about columns without text.) *)
Definition series_sum (s : Series) : outcome Q :=
  l ← numbers s; mret (Qsum l).

(** [s.nunique()]: the number of distinct values, blanks apart. *)
Definition nunique (s : Series) : nat := length (unique (dropna s)).

(** [df.sum()]: one total per column. *)
Definition sum_axis0 (df : DataFrame) : outcome (list (string * Q)) :=
  mapM (λ c, t ← series_sum (col_values df c); mret (c, t)) (columns df).

(** [df.sort_values(by, ascending=False)]: the rows with a value under
    [by] in descending order, then the rows with a blank there.  Each row
    is put before the first row whose value is smaller; pandas leaves the
    order of rows with equal values open (here they keep their order). *)
Fixpoint insert_desc (by_ : string) (r : gmap string cell)
    (l : list (gmap string cell)) : outcome (list (gmap string cell)) :=
  match l with
  | [] => Done [r]
  | y :: l' =>
      b ← cell_lt (cell_of y by_) (cell_of r by_);
      if b : bool then Done (r :: y :: l')
      else (l'' ← insert_desc by_ r l'; mret (y :: l''))
  end.

Fixpoint sort_desc_into (by_ : string) (acc l : list (gmap string cell))
  : outcome (list (gmap string cell)) :=
  match l with
  | [] => Done acc
  | r :: l' => acc' ← insert_desc by_ r acc; sort_desc_into by_ acc' l'
  end.

Definition sort_values_desc (df : DataFrame) (by_ : string)
  : outcome DataFrame :=
  keys ← get_col df by_;
  let valued := filter (λ r, isna (cell_of r by_) = false) (rows df) in
  let blank := filter (λ r, isna (cell_of r by_) = true) (rows df) in
  sorted_rows ← sort_desc_into by_ [] valued;
  mret {| columns := columns df; rows := sorted_rows ++ blank |}.

(** [df.head(n)] *)
Definition head (n : nat) (df : DataFrame) : DataFrame :=
  {| columns := columns df; rows := take n (rows df) |}.

(** Lines 110-149, the "Overview Dashboard" page. *)
Record overview : Type := mkOverview {
  total_outstanding : Q;
  overdue_90 : Q;
  overdue_pct : Q;
  customers : nat;
  aging_sum : list (string * Q);
  top10 : DataFrame
}.

Definition overview_dashboard (st : state) : outcome (option overview) :=
  match uploaded_file st with
  | Some _ =>
      if decide (page st = "Overview Dashboard") then
        let ar := ar_df st in
        tot ← get_col ar "Total Outstanding";
        total_outstanding ← series_sum tot;
        over ← get_col ar ">90 Days";
        overdue_90 ← series_sum over;
        let overdue_pct :=
          if QMicromega.Qlt_bool 0 total_outstanding
          then (overdue_90 / total_outstanding * 100)%Q else 0%Q in
        cust ← get_col ar "Customer Name";
        sub ← get_cols ar aging_cols;
        aging_sum ← sum_axis0 sub;
        sorted_ar ← sort_values_desc ar ">90 Days";
        top10 ← get_cols (head 10 sorted_ar)
                  ["Customer Name"; "Executive Name"; "Total Outstanding";
                   ">90 Days"];
        mret (Some {| total_outstanding := total_outstanding;
                      overdue_90 := overdue_90;
                      overdue_pct := overdue_pct;
                      customers := nunique cust;
                      aging_sum := aging_sum;
                      top10 := top10 |})
      else Done None
  | None => Done None
  end.

(** Lines 166-168: [groupby("Executive Name", as_index=False)[cols].sum()].
    One row per name, the names in sorted order; rows with a blank name
    belong to no group.  The keys are ordered as [sorted] orders them,
    which is pandas' order when they are all texts. *)
Definition group_rows (df : DataFrame) (by_ : string) (key : cell)
  : list (gmap string cell) :=
  filter (λ r, cell_eqb (cell_of r by_) key = true) (rows df).

Definition group_sum (df : DataFrame) (by_ : string) (cols : list string)
    (key : cell) : outcome (gmap string cell) :=
  sums ← mapM (λ c, t ← series_sum ((λ r, cell_of r c) <$> group_rows df by_ key);
                    mret (c, CNum t)) cols;
  mret (list_to_map ((by_, key) :: sums)).

Definition groupby_sum (df : DataFrame) (by_ : string) (cols : list string)
  : outcome DataFrame :=
  names ← get_col df by_;
  _ ← get_cols df cols;
  keys ← sorted (unique (dropna names));
  groups ← mapM (group_sum df by_ cols) keys;
  mret {| columns := by_ :: cols; rows := groups |}.

(** Lines 187-212, the "Customer & Invoice Drilldown" page; [choice] is
    the entry picked in its customer selector. *)
Definition display_cols : list string :=
  ["Customer Name"; "Invoice No"; "Invoice Date"; "Outstanding Amount";
   "Aging Bucket"; "Executive Name"; "Remarks"].

Record drilldown : Type := mkDrilldown {
  customer : cell;
  customer_total : Q;
  invoices : nat;
  cust_inv : DataFrame
}.

Definition customer_drilldown (st : state) (choice : nat)
  : outcome (option drilldown) :=
  match uploaded_file st with
  | Some _ =>
      if decide (page st = "Customer & Invoice Drilldown") then
        let inv := inv_df st in
        names ← get_col inv "Customer Name";
        options ← sorted (unique (dropna names));
        let customer := selectbox options choice in
        names' ← get_col inv "Customer Name";
        let cust_inv := boolean_index inv (series_eq names' customer) in
        amounts ← get_col cust_inv "Outstanding Amount";
        total ← series_sum amounts;
        numbers_ ← get_col cust_inv "Invoice No";
        shown ← get_cols cust_inv
                   (filter (λ c, c ∈ columns cust_inv) display_cols);
        mret (Some {| customer := customer; customer_total := total;
                      invoices := nunique numbers_; cust_inv := shown |})
      else Done None
  | None => Done None
  end.

(** Lines 217-234, the "Action Tracker" page. *)
Definition isin (s : Series) (values : list cell) : list bool :=
  (λ c, existsb (cell_eqb c) values) <$> s.

Definition highlight (width : nat) (r : gmap string cell) : list string :=
  if existsb (cell_eqb (cell_of r "Aging Bucket"))
       [CStr "181-365"; CStr "Above 365"]
  then replicate width "background-color:#ffcccc"
  else if existsb (cell_eqb (cell_of r "Aging Bucket"))
            [CStr "151-180"; CStr "121-150"]
  then replicate width "background-color:#ffe0b3"
  else replicate width "".

Definition action_tracker (st : state)
  : outcome (option (DataFrame * list (list string))) :=
  match uploaded_file st with
  | Some _ =>
      if decide (page st = "Action Tracker") then
        let inv := inv_df st in
        buckets ← get_col inv "Aging Bucket";
        let overdue_df :=
          boolean_index inv
            (isin buckets (CStr <$> ["91-120"; "121-150"; "151-180";
                                     "181-365"; "Above 365"])) in
        mret (Some (overdue_df,
                    highlight (length (columns overdue_df))
                      <$> rows overdue_df))
      else Done None
  | None => Done None
  end.

(** The frame lines 47-58 make of a sheet: labels trimmed, month
    attached. *)
Definition loaded (month : string) (df : DataFrame) : DataFrame :=
  set_scalar (strip_columns df) "Month" (CStr month).

(** ** Sample uploads

    Small workbooks on which the pipeline is run below. *)

Definition aging_record (customer executive amount : cell)
    (buckets : list cell) : gmap string cell :=
  list_to_map (("Customer Name", customer) :: ("Executive Name", executive)
               :: ("Amount", amount) :: zip aging_cols buckets).

(** The row of the specification's example, and a row with text and blank
    cells. *)
Definition example_aging : DataFrame :=
  {| columns := required_ar_cols;
     rows :=
       [aging_record (CStr "Acme") (CStr "Bob") (CNum 0)
          (CNum <$> [100; 0; 0; 200; 0; 0; 0; 0]%Q);
        aging_record (CStr "Zenith") (CStr "Asha") (CStr "n/a")
          [CNum 10; CStr "20"; CNaN; CStr "-"; CNum 5; CNum 0; CNum 0;
           CNum 0]] |}.

(** The row of the specification's example alone. *)
Definition spec_example_aging : DataFrame :=
  {| columns := required_ar_cols;
     rows :=
       [aging_record (CStr "Acme") (CStr "Bob") (CNum 0)
          (CNum <$> [100; 0; 0; 200; 0; 0; 0; 0]%Q)] |}.

(** A row with a negative bucket and no declared amount. *)
Definition negative_aging : DataFrame :=
  {| columns := required_ar_cols;
     rows :=
       [aging_record (CStr "Acme") (CStr "Bob") (CNum 0)
          (CNum <$> [-5; 0; 0; 0; 0; 0; 0; 0]%Q)] |}.

(** The aging sheet without its "61-90" column. *)
Definition aging_without_61_90 : DataFrame :=
  {| columns := filter (λ c, c ≠ "61-90") required_ar_cols;
     rows := rows example_aging |}.

Definition target_record (executive target actual : cell)
  : gmap string cell :=
  list_to_map [("Executive Name", executive); ("Target Amount", target);
               ("Actual Collected", actual)].

Definition example_targets : DataFrame :=
  {| columns := ["Executive Name"; "Target Amount"; "Actual Collected"];
     rows :=
       [target_record (CStr "Bob") (CNum 1000) (CNum 250);
        target_record (CStr "Asha") (CNum 0) (CNum 70);
        target_record (CStr "Chen") CNaN (CNum 30)] |}.

(** The targets sheet without "Executive Name", and without
    "Target Amount". *)
Definition targets_without_executive : DataFrame :=
  {| columns := ["Target Amount"; "Actual Collected"];
     rows := rows example_targets |}.

Definition targets_without_target : DataFrame :=
  {| columns := ["Executive Name"; "Actual Collected"];
     rows := rows example_targets |}.

Definition example_invoices : DataFrame :=
  {| columns := ["Customer Name"; "Invoice No"; "Invoice Date";
                 "Outstanding Amount"; "Aging Bucket"; "Executive Name";
                 "Remarks"];
     rows :=
       [list_to_map [("Customer Name", CStr "Acme");
                     ("Invoice No", CStr "INV-1");
                     ("Invoice Date", CStr "2025-09-01");
                     ("Outstanding Amount", CNum 200);
                     ("Aging Bucket", CStr "91-120");
                     ("Executive Name", CStr "Bob");
                     ("Remarks", CNaN)];
        list_to_map [("Customer Name", CStr "Zenith");
                     ("Invoice No", CStr "INV-2");
                     ("Invoice Date", CStr "2025-12-20");
                     ("Outstanding Amount", CNum 10);
                     ("Aging Bucket", CStr "0-30");
                     ("Executive Name", CStr "Asha");
                     ("Remarks", CStr "call")]] |}.

Definition workbook (ar ex inv : DataFrame) : gmap string DataFrame :=
  list_to_map [("AR_Aging", ar); ("Executive_Targets", ex);
               ("Invoice_Details", inv)].

Definition no_frame : DataFrame := {| columns := []; rows := [] |}.

(** A session that has just uploaded [wb]: no frame has been computed. *)
Definition session (wb : gmap string DataFrame) (month page : string)
    (choice : nat) : state :=
  {| uploaded_file := Some wb; month_input := month; page := page;
     exec_choice := choice;
     ar_df := no_frame; exec_df := no_frame; inv_df := no_frame |}.

(** A session on the "Executive Performance" page, its frames loaded. *)
Definition performance_session : state :=
  {| uploaded_file :=
       Some (workbook spec_example_aging example_targets example_invoices);
     month_input := "Jan-2026"; page := "Executive Performance";
     exec_choice := 0;
     ar_df := spec_example_aging; exec_df := example_targets;
     inv_df := example_invoices |}.

(** An aging sheet whose executive names are a text and a number, and an
    aging sheet without rows. *)
Definition mixed_names_aging : DataFrame :=
  {| columns := required_ar_cols;
     rows :=
       [aging_record (CStr "Acme") (CStr "Bob") (CNum 0)
          (CNum <$> [100; 0; 0; 200; 0; 0; 0; 0]%Q);
        aging_record (CStr "Zenith") (CNum 7) (CNum 50)
          (CNum <$> [50; 0; 0; 0; 0; 0; 0; 0]%Q)] |}.

Definition empty_aging : DataFrame :=
  {| columns := required_ar_cols; rows := [] |}.

(** The rows of [df] that belong to executive [name]. *)
Definition rows_of_executive (name : string) (df : DataFrame) : DataFrame :=
  {| columns := columns df;
     rows := filter (λ r, cell_of r "Executive Name" = CStr name) (rows df) |}.

(** The state [st] with the three frames replaced. *)
Definition with_frames (st : state) (ar ex inv : DataFrame) : state :=
  {| uploaded_file := uploaded_file st; month_input := month_input st;
     page := page st; exec_choice := exec_choice st;
     ar_df := ar; exec_df := ex; inv_df := inv |}.

Section Pipeline.

(** The reader of numerals of [pd.to_numeric]: the number a text spells,
    or nothing when it spells none (or spells NaN). *)
Variable str_to_float : string → option Q.

(** [pd.to_numeric(s, errors="coerce")]: what does not read as a number
    becomes NaN. *)
Definition to_numeric_cell (c : cell) : cell :=
  match c with
  | CNum q => CNum q
  | CStr s => match str_to_float s with Some q => CNum q | None => CNaN end
  | CNaN => CNaN
  end.

Definition to_numeric (s : Series) : Series := to_numeric_cell <$> s.

(** Lines 39-45: the three sheets, or the read error. *)
Definition read_excel (wb : gmap string DataFrame) (sheet_name : string)
  : option DataFrame := wb !! sheet_name.

Definition read_sheets (wb : gmap string DataFrame)
  : outcome (DataFrame * DataFrame * DataFrame) :=
  match read_excel wb "AR_Aging", read_excel wb "Executive_Targets",
        read_excel wb "Invoice_Details" with
  | Some ar, Some ex, Some inv => Done (ar, ex, inv)
  | _, _, _ => Stopped (st_error "❌ Error reading Excel. Check sheet names.")
  end.

(** Lines 68-72: the first required column that is missing is reported. *)
Fixpoint validate (df : DataFrame) (cols : list string) : outcome unit :=
  match cols with
  | [] => Done ()
  | col :: cols' =>
      if decide (col ∈ columns df) then validate df cols'
      else Stopped (st_error ("❌ Missing column in AR_Aging: " ++ col))
  end.

(** Lines 74-78. *)
Definition coerce_numeric (df : DataFrame) : outcome DataFrame :=
  sub ← get_cols df aging_cols;
  let df := set_cols df (fillna_frame 0 (apply to_numeric sub)) in
  amount ← get_col df "Amount";
  mret (set_col df "Amount" (fillna 0 (to_numeric amount))).

(** Lines 80-90. *)
Definition derived_columns (df : DataFrame) : outcome DataFrame :=
  sub ← get_cols df aging_cols;
  aging_sum ← sum_axis1 sub;
  let df := set_col df "Aging Sum" aging_sum in
  amount ← get_col df "Amount";
  cond ← series_gt amount 0;
  amount' ← get_col df "Amount";
  aging_sum' ← get_col df "Aging Sum";
  let df := set_col df "Total Outstanding" (np_where cond amount' aging_sum') in
  sub90 ← get_cols df over_90_cols;
  over90 ← sum_axis1 sub90;
  mret (set_col df ">90 Days" over90).

(** Lines 74-90: the coercion, then the derived columns. *)
Definition calculations (df : DataFrame) : outcome DataFrame :=
  df ← coerce_numeric df; derived_columns df.

(** Lines 99-100. *)
Definition executives (df : DataFrame) : outcome (list cell) :=
  names ← get_col df "Executive Name";
  s ← sorted (unique (dropna names));
  mret (CStr "All" :: s).

(** [df[df["Executive Name"] == selected_exec]] *)
Definition filter_exec (df : DataFrame) (selected_exec : cell)
  : outcome DataFrame :=
  names ← get_col df "Executive Name";
  mret (boolean_index df (series_eq names selected_exec)).

(** Lines 102-105. *)
Definition apply_filter (selected_exec : cell)
    (t : DataFrame * DataFrame * DataFrame)
  : outcome (DataFrame * DataFrame * DataFrame) :=
  let '(ar, ex, inv) := t in
  if cell_eqb selected_exec (CStr "All") then Done (ar, ex, inv)
  else
    ar' ← filter_exec ar selected_exec;
    ex' ← filter_exec ex selected_exec;
    inv' ← filter_exec inv selected_exec;
    mret (ar', ex', inv').

(** Lines 37-105.  The frames are read afresh from the upload; the state
    keeps the frames the pages then use. *)
Definition pipeline (st : state) : outcome state :=
  match uploaded_file st with
  | None => Done st
  | Some wb =>
      '(ar, ex, inv) ← read_sheets wb;
      let ar := strip_columns ar in
      let ex := strip_columns ex in
      let inv := strip_columns inv in
      if decide (month_input st = "")
      then Stopped (st_warning "⚠️ Please enter Month to proceed")
      else
        let ar := set_scalar ar "Month" (CStr (month_input st)) in
        let ex := set_scalar ex "Month" (CStr (month_input st)) in
        let inv := set_scalar inv "Month" (CStr (month_input st)) in
        _ ← validate ar required_ar_cols;
        ar ← calculations ar;
        if empty ar then Stopped (st_warning "No data available.")
        else
          options ← executives ar;
          let selected_exec := selectbox options (exec_choice st) in
          '(ar, ex, inv) ← apply_filter selected_exec (ar, ex, inv);
          mret {| uploaded_file := uploaded_file st;
                  month_input := month_input st;
                  page := page st;
                  exec_choice := exec_choice st;
                  ar_df := ar; exec_df := ex; inv_df := inv |}
  end.

(** Lines 154-162: the derived columns of the "Executive Performance"
    page. *)
Definition executive_performance (st : state) : outcome state :=
  match uploaded_file st with
  | Some _ =>
      if decide (page st = "Executive Performance") then
        let ex := exec_df st in
        target ← get_col ex "Target Amount";
        actual ← get_col ex "Actual Collected";
        pending ← series_arith Qminus target actual;
        let ex := set_col ex "Pending" pending in
        actual' ← get_col ex "Actual Collected";
        target' ← get_col ex "Target Amount";
        ratio ← series_div actual' (replace_zero_nan target');
        pct ← series_mul_scalar ratio 100;
        let ex := set_col ex "Achievement %" (fillna 0 pct) in
        mret {| uploaded_file := uploaded_file st;
                month_input := month_input st;
                page := page st;
                exec_choice := exec_choice st;
                ar_df := ar_df st; exec_df := ex; inv_df := inv_df st |}
      else Done st
  | None => Done st
  end.

(** ** The blocks, one row at a time

    Every statement of lines 74-90 works on a row without looking at any
    other row.  These are the same statements read on a single row [r];
    [calculations_rows] below shows that the frame the script builds is
    this function mapped over the rows. *)

Definition coerce_row (r : gmap string cell) : gmap string cell :=
  let sub := restrict aging_cols r in
  let sub :=
    foldl (λ a c, <[c := to_numeric_cell (cell_of a c)]> a) sub aging_cols in
  let sub := fillna_cell 0 <$> sub in
  let r := foldl (λ a c, <[c := cell_of sub c]> a) r aging_cols in
  <["Amount" := fillna_cell 0 (to_numeric_cell (cell_of r "Amount"))]> r.

(** The number in a cell that holds one. *)
Definition num_of (c : cell) : Q :=
  match c with CNum q => q | _ => 0%Q end.

Definition sum_cells (cols : list string) (r : gmap string cell) : cell :=
  CNum (Qsum (num_of <$> (cell_of (restrict cols r) <$> cols))).

Definition derived_row (r : gmap string cell) : gmap string cell :=
  let r := <["Aging Sum" := sum_cells aging_cols r]> r in
  let r :=
    <["Total Outstanding" :=
        if QMicromega.Qlt_bool 0 (num_of (cell_of r "Amount"))
        then cell_of r "Amount" else cell_of r "Aging Sum"]> r in
  <[">90 Days" := sum_cells over_90_cols r]> r.

Definition calc_row (r : gmap string cell) : gmap string cell :=
  derived_row (coerce_row r).

(** The aging frame lines 74-90 make of a frame that has the required
    columns. *)
Definition calculated (df : DataFrame) : DataFrame :=
  {| columns :=
       add_column (add_column (add_column (columns df) "Aging Sum")
                              "Total Outstanding") ">90 Days";
     rows := calc_row <$> rows df |}.

(** Lines 166-168: the chart data of the "Executive Performance" page. *)
Definition exec_chart (st : state) : outcome DataFrame :=
  st' ← executive_performance st;
  groupby_sum (exec_df st') "Executive Name"
              ["Target Amount"; "Actual Collected"].

(** A frame as the pipeline leaves the aging frame: the required and the
    derived columns are there and every row has been through the
    calculations. *)
Definition calculated_frame (df : DataFrame) : Prop :=
  required_ar_cols ⊆ columns df ∧ derived_labels ⊆ columns df ∧
  ∀ r, r ∈ rows df → ∃ r0, r = calc_row r0.

(** * Properties *)

(** Settles a lookup after an insertion into a list of labels: the cases
    of whether [k] is the head, is in the tail, is in the list. *)
Ltac elem_cases :=
  repeat case_decide; subst; try done;
  repeat match goal with
  | H : _ ∈ _ :: _ |- _ => apply elem_of_cons in H as [?|?]; subst
  | H : _ ∉ _ :: _ |- _ => apply not_elem_of_cons in H as [? ?]
  end; try done; try congruence.

(** ** The outcome monad *)

Lemma mapM_Done {A B} (f : A → outcome B) (g : A → B) (l : list A) :
  (∀ x, x ∈ l → f x = Done (g x)) → mapM f l = Done (g <$> l).
Proof.
  induction l as [|x l IH]; intros Hf; [done|].
  cbn. rewrite (Hf x) by left. cbn.
  rewrite IH; [done|]. intros y Hy. apply Hf. by right.
Qed.

(** ** Reading and writing columns *)

Lemma get_col_Done df c :
  c ∈ columns df → get_col df c = Done (col_values df c).
Proof. intros H. unfold get_col. by rewrite decide_True. Qed.

Lemma get_col_Raised df c :
  c ∉ columns df → get_col df c = Raised (KeyError c).
Proof. intros H. unfold get_col. by rewrite decide_False. Qed.

Lemma elem_of_columns_set_col df c s c' :
  c' ∈ columns (set_col df c s) ↔ c' ∈ columns df ∨ c' = c.
Proof.
  unfold set_col, add_column; cbn. case_decide.
  - split; [by left|]. intros [?| ->]; done.
  - rewrite elem_of_app, list_elem_of_singleton. done.
Qed.

Lemma add_column_elem cs c : c ∈ cs → add_column cs c = cs.
Proof. intros H. unfold add_column. by rewrite decide_True. Qed.

Lemma subseteq_add_column cs c : cs ⊆ add_column cs c.
Proof.
  unfold add_column. case_decide; [done|]. intros x Hx.
  apply elem_of_app. by left.
Qed.

(** Writing a series that was computed row by row. *)
Lemma rows_set_col_fmap {A} (rs : list A) (G : A → gmap string cell)
    (h : A → cell) df c :
  rows df = G <$> rs →
  rows (set_col df c (h <$> rs)) = (λ x, <[c := h x]> (G x)) <$> rs.
Proof.
  intros H. unfold set_col; cbn [rows]. rewrite H, imap_fmap.
  rewrite <- (imap_const (λ x, <[c := h x]> (G x))).
  apply imap_ext. intros i x Hx. unfold compose.
  by rewrite (list_lookup_fmap h), Hx.
Qed.

Lemma rows_set_col_own df c (h : gmap string cell → cell) :
  rows (set_col df c (h <$> rows df)) = (λ r, <[c := h r]> r) <$> rows df.
Proof.
  apply (rows_set_col_fmap (rows df) id h). by rewrite list_fmap_id.
Qed.

Lemma length_rows_set_col df c s :
  length (rows (set_col df c s)) = length (rows df).
Proof. unfold set_col; cbn. apply length_imap. Qed.

Lemma rows_set_scalar df c v :
  rows (set_scalar df c v) = (λ r, <[c := v]> r) <$> rows df.
Proof.
  unfold set_scalar, set_col; cbn [rows].
  rewrite <- (imap_const (λ r, <[c := v]> r)).
  apply imap_ext. intros i x Hx. unfold const.
  rewrite lookup_replicate_2; [done|]. by eapply lookup_lt_Some.
Qed.

(** ** Rows as finite maps *)

Lemma cell_of_insert (r : gmap string cell) c v k :
  cell_of (<[c := v]> r) k = if decide (c = k) then v else cell_of r k.
Proof. unfold cell_of. rewrite lookup_insert. by case_decide. Qed.

Lemma lookup_restrict cols (r : gmap string cell) k :
  restrict cols r !! k =
  if decide (k ∈ cols) then Some (cell_of r k) else None.
Proof.
  unfold restrict. induction cols as [|c cols IH]; cbn.
  - by rewrite lookup_empty.
  - rewrite lookup_insert, IH. elem_cases.
Qed.

Lemma cell_of_restrict cols (r : gmap string cell) k :
  k ∈ cols → cell_of (restrict cols r) k = cell_of r k.
Proof.
  intros H. unfold cell_of at 1. rewrite lookup_restrict.
  by rewrite decide_True.
Qed.

(** Writing cells that do not depend on the row being written. *)
Lemma lookup_foldl_insert (f : string → cell) cols (acc : gmap string cell) k :
  foldl (λ a c, <[c := f c]> a) acc cols !! k =
  if decide (k ∈ cols) then Some (f k) else acc !! k.
Proof.
  revert acc. induction cols as [|c cols IH]; intros acc; cbn.
  - done.
  - rewrite IH, lookup_insert. elem_cases.
Qed.

(** Rewriting each listed cell from its own old value. *)
Lemma lookup_foldl_update (g : cell → cell) cols (acc : gmap string cell) k :
  NoDup cols →
  foldl (λ a c, <[c := g (cell_of a c)]> a) acc cols !! k =
  if decide (k ∈ cols) then Some (g (cell_of acc k)) else acc !! k.
Proof.
  intros Hnd. revert acc.
  induction Hnd as [|c cols Hc Hnd IH]; intros acc; cbn.
  - done.
  - rewrite IH. unfold cell_of. rewrite lookup_insert.
    elem_cases.
Qed.

(** ** Sub-frames *)

Lemma get_cols_Done df cols :
  cols ⊆ columns df →
  get_cols df cols =
  Done {| columns := cols; rows := restrict cols <$> rows df |}.
Proof.
  intros Hsub. unfold get_cols.
  assert (filter (λ c, c ∉ columns df) cols = []) as ->; [|done].
  induction cols as [|c cols IH]; [done|].
  rewrite filter_cons, decide_False.
  - apply IH. intros x Hx. apply Hsub. by right.
  - intros Hc. apply Hc, Hsub. by left.
Qed.

Lemma columns_foldl_set_col (f : DataFrame → string → Series) cols df :
  cols ⊆ columns df →
  columns (foldl (λ d c, set_col d c (f d c)) df cols) = columns df.
Proof.
  revert df. induction cols as [|c cols IH]; intros df Hsub; cbn; [done|].
  assert (columns (set_col df c (f df c)) = columns df) as Hc.
  { unfold set_col; cbn. apply add_column_elem, Hsub. by left. }
  rewrite IH, Hc; [done|]. rewrite Hc. intros x Hx. apply Hsub. by right.
Qed.

Lemma columns_apply f df : columns (apply f df) = columns df.
Proof.
  unfold apply.
  by apply (columns_foldl_set_col (λ d c, f (col_values d c))).
Qed.

Lemma columns_set_cols df sub :
  columns sub ⊆ columns df → columns (set_cols df sub) = columns df.
Proof.
  intros H. unfold set_cols.
  by apply (columns_foldl_set_col (λ _ c, col_values sub c)).
Qed.

(** [apply] of a cell-wise function rewrites every row on its own. *)
Lemma rows_apply_fmap (g : cell → cell) df :
  rows (apply (fmap g) df) =
  (λ r, foldl (λ a c, <[c := g (cell_of a c)]> a) r (columns df)) <$> rows df.
Proof.
  unfold apply. generalize (columns df) as cols. intros cols. revert df.
  induction cols as [|c cols IH]; intros df; cbn.
  - by rewrite list_fmap_id.
  - rewrite IH. unfold col_values. rewrite <- list_fmap_compose.
    rewrite rows_set_col_own, <- list_fmap_compose. done.
Qed.

(** Writing back columns computed row by row from the same rows. *)
Lemma rows_set_cols_fmap (S : gmap string cell → gmap string cell) df sub :
  rows sub = S <$> rows df →
  rows (set_cols df sub) =
  (λ r, foldl (λ a c, <[c := cell_of (S r) c]> a) r (columns sub)) <$> rows df.
Proof.
  intros HS. unfold set_cols.
  assert (∀ cols d (G : gmap string cell → gmap string cell),
    rows d = G <$> rows df →
    rows (foldl (λ d c, set_col d c (col_values sub c)) d cols) =
    (λ r, foldl (λ a c, <[c := cell_of (S r) c]> a) (G r) cols) <$> rows df)
    as Hgen.
  { induction cols as [|c cols IH]; intros d G HG; cbn; [done|].
    rewrite (IH _ (λ r, <[c := cell_of (S r) c]> (G r))); [done|].
    unfold col_values. rewrite HS, <- list_fmap_compose.
    by apply (rows_set_col_fmap (rows df) G (λ r, cell_of (S r) c)). }
  apply (Hgen _ _ id). by rewrite list_fmap_id.
Qed.

(** ** Lines 74-78: the coercion *)

Lemma NoDup_aging_cols : NoDup aging_cols.
Proof. by apply (bool_decide_unpack _); vm_compute. Qed.

Lemma DataFrame_eq (a b : DataFrame) :
  columns a = columns b → rows a = rows b → a = b.
Proof. destruct a, b; cbn; by intros -> ->. Qed.

Lemma coerce_numeric_Done df :
  "Amount" :: aging_cols ⊆ columns df →
  coerce_numeric df =
  Done {| columns := columns df; rows := coerce_row <$> rows df |}.
Proof.
  unfold coerce_numeric, coerce_row. generalize aging_cols as cols.
  intros cols Hsub.
  assert (cols ⊆ columns df) as Hag.
  { intros c Hc. apply Hsub. by right. }
  assert ("Amount" ∈ columns df) as Ham.
  { apply Hsub. by left. }
  rewrite (get_cols_Done _ _ Hag). cbn [mbind outcome_bind].
  set (sub := fillna_frame 0 _).
  assert (rows sub =
    (λ r, fillna_cell 0 <$>
       foldl (λ a c, <[c := to_numeric_cell (cell_of a c)]> a)
             (restrict cols r) cols) <$> rows df) as Hsub_rows.
  { unfold sub, fillna_frame, to_numeric. cbn [rows].
    rewrite rows_apply_fmap. cbn [rows columns].
    by rewrite <- !list_fmap_compose. }
  assert (columns sub = cols) as Hsub_cols.
  { unfold sub, fillna_frame. cbn [columns]. by rewrite columns_apply. }
  assert (columns (set_cols df sub) = columns df) as Hcols.
  { apply columns_set_cols. by rewrite Hsub_cols. }
  rewrite get_col_Done by (by rewrite Hcols).
  cbn [mbind outcome_bind mret outcome_ret]. f_equal.
  apply DataFrame_eq; cbn [columns rows].
  - unfold set_col. cbn [columns]. rewrite Hcols. by apply add_column_elem.
  - pose proof (rows_set_cols_fmap _ df sub Hsub_rows) as Hrows.
    rewrite Hsub_cols in Hrows.
    unfold fillna, to_numeric, col_values.
    rewrite <- !list_fmap_compose, Hrows, <- list_fmap_compose.
    rewrite (rows_set_col_fmap (rows df) _ _ _ _ Hrows).
    reflexivity.
Qed.

(** After the coercion every listed cell is the number it spelled, or 0. *)
Lemma cell_of_coerce_row r k :
  cell_of (coerce_row r) k =
  if decide (k ∈ "Amount" :: aging_cols)
  then fillna_cell 0 (to_numeric_cell (cell_of r k))
  else cell_of r k.
Proof.
  assert ("Amount" ∉ aging_cols) as Hne
    by by apply (bool_decide_unpack _); vm_compute.
  pose proof NoDup_aging_cols as Hnd.
  unfold coerce_row. revert Hne Hnd. generalize aging_cols as cols.
  intros cols Hne Hnd. cbv zeta.
  set (sub := fillna_cell 0 <$> _).
  assert (∀ c, cell_of (foldl (λ a c, <[c := cell_of sub c]> a) r cols) c =
               if decide (c ∈ cols) then cell_of sub c else cell_of r c)
    as Hfold.
  { intros c. unfold cell_of at 1.
    rewrite (lookup_foldl_insert (cell_of sub)). by case_decide. }
  rewrite cell_of_insert. case_decide as Hk.
  - subst k. rewrite decide_True by by left.
    by rewrite Hfold, decide_False.
  - rewrite Hfold. destruct (decide (k ∈ cols)) as [Hin|Hnin].
    + rewrite decide_True by by right.
      unfold cell_of at 1, sub.
      rewrite lookup_fmap, (lookup_foldl_update to_numeric_cell) by done.
      rewrite decide_True by done. cbn.
      by rewrite cell_of_restrict.
    + rewrite decide_False; [done|].
      intros [?|?]%elem_of_cons; congruence.
Qed.

Lemma coerce_row_numeric r k :
  k ∈ "Amount" :: aging_cols → ∃ q, cell_of (coerce_row r) k = CNum q.
Proof.
  intros Hk. rewrite cell_of_coerce_row, decide_True by done.
  destruct (cell_of r k) as [q|s|]; cbn; eauto.
  destruct (str_to_float s); cbn; eauto.
Qed.

(** ** Lines 80-90: the derived columns *)

Lemma numbers_Done (l : list cell) :
  (∀ c, c ∈ l → ∃ q, c = CNum q) → numbers l = Done (num_of <$> l).
Proof.
  induction l as [|c l IH]; intros Hl; [done|].
  destruct (Hl c) as [q ->]; [by left|]. cbn.
  rewrite IH; [done|]. intros c' Hc'. apply Hl. by right.
Qed.

Lemma sum_axis1_restrict cols (rs : list (gmap string cell)) :
  (∀ r c, r ∈ rs → c ∈ cols → ∃ q, cell_of r c = CNum q) →
  sum_axis1 {| columns := cols; rows := restrict cols <$> rs |} =
  Done (sum_cells cols <$> rs).
Proof.
  intros Hnum. unfold sum_axis1. cbn [columns rows].
  rewrite (mapM_Done _ (λ r, CNum (Qsum (num_of <$> (cell_of r <$> cols))))).
  - by rewrite <- list_fmap_compose.
  - intros r' (r & -> & Hr)%list_elem_of_fmap. unfold row_sum.
    rewrite numbers_Done; [done|].
    intros c (k & -> & Hk)%list_elem_of_fmap.
    rewrite cell_of_restrict by done. by apply Hnum.
Qed.

Lemma np_where_fmap {A} (f : A → bool) (g h : A → cell) (l : list A) :
  np_where (f <$> l) (g <$> l) (h <$> l) =
  (λ x, if f x then g x else h x) <$> l.
Proof. induction l as [|x l IH]; [done|]. cbn. f_equal. apply IH. Qed.

Lemma series_gt_fmap {A} (h : A → cell) (l : list A) v :
  (∀ x, x ∈ l → ∃ q, h x = CNum q) →
  series_gt (h <$> l) v =
  Done ((λ x, QMicromega.Qlt_bool v (num_of (h x))) <$> l).
Proof.
  intros Hnum. unfold series_gt.
  rewrite (mapM_Done _ (λ c, QMicromega.Qlt_bool v (num_of c))).
  - by rewrite <- list_fmap_compose.
  - intros c (x & -> & Hx)%list_elem_of_fmap.
    by destruct (Hnum x Hx) as [q ->].
Qed.

Lemma derived_columns_Done df :
  "Amount" :: aging_cols ⊆ columns df →
  (∀ r c, r ∈ rows df → c ∈ "Amount" :: aging_cols →
          ∃ q, cell_of r c = CNum q) →
  derived_columns df =
  Done {| columns :=
            add_column (add_column (add_column (columns df) "Aging Sum")
                                   "Total Outstanding") ">90 Days";
          rows := derived_row <$> rows df |}.
Proof.
  intros Hsub Hnum.
  assert (over_90_cols ⊆ aging_cols) as H90
    by by apply (bool_decide_unpack _); vm_compute.
  assert (aging_cols ⊆ columns df) as Hag.
  { intros c Hc. apply Hsub. by right. }
  assert ("Amount" ∈ columns df) as Ham.
  { apply Hsub. by left. }
  assert (∀ r, r ∈ rows df → ∃ q, cell_of r "Amount" = CNum q) as Hnum_am.
  { intros r Hr. apply Hnum; [done|by left]. }
  assert (∀ r c, r ∈ rows df → c ∈ aging_cols → ∃ q, cell_of r c = CNum q)
    as Hnum_ag.
  { intros r c Hr Hc. apply Hnum; [done|by right]. }
  clear Hsub Hnum.
  unfold derived_columns, derived_row.
  revert H90 Hag Hnum_ag.
  generalize aging_cols as cols, over_90_cols as cols90.
  intros cols cols90 H90 Hag Hnum_ag.
  (* Aging Sum *)
  rewrite (get_cols_Done _ _ Hag). cbn [mbind outcome_bind].
  rewrite sum_axis1_restrict by done. cbn [mbind outcome_bind].
  set (df1 := set_col df "Aging Sum" _).
  assert (rows df1 =
    (λ r, <["Aging Sum" := sum_cells cols r]> r) <$> rows df) as Hrows1
    by apply rows_set_col_own.
  assert (columns df1 = add_column (columns df) "Aging Sum") as Hcols1
    by done.
  assert ("Amount" ∈ columns df1) as Ham1.
  { rewrite Hcols1. by apply subseteq_add_column. }
  assert ("Aging Sum" ∈ columns df1) as Has1.
  { apply elem_of_columns_set_col. by right. }
  (* Total Outstanding *)
  rewrite !get_col_Done by done. cbn [mbind outcome_bind].
  unfold col_values. rewrite Hrows1, <- !list_fmap_compose.
  rewrite series_gt_fmap.
  2:{ intros r Hr. cbn. rewrite cell_of_insert, decide_False by done.
      by apply Hnum_am. }
  cbn [mbind outcome_bind]. rewrite np_where_fmap.
  set (df2 := set_col df1 "Total Outstanding" _).
  set (row2 := λ r : gmap string cell,
    let r1 := <["Aging Sum" := sum_cells cols r]> r in
    <["Total Outstanding" :=
        if QMicromega.Qlt_bool 0 (num_of (cell_of r1 "Amount"))
        then cell_of r1 "Amount" else cell_of r1 "Aging Sum"]> r1).
  assert (rows df2 = row2 <$> rows df) as Hrows2.
  { unfold df2. by erewrite rows_set_col_fmap. }
  assert (columns df2 =
    add_column (add_column (columns df) "Aging Sum") "Total Outstanding")
    as Hcols2 by (unfold df2, set_col; cbn [columns]; by rewrite Hcols1).
  (* >90 Days *)
  assert (cols90 ⊆ columns df2) as H90cols.
  { rewrite Hcols2. intros c Hc.
    by apply subseteq_add_column, subseteq_add_column, Hag, H90. }
  rewrite (get_cols_Done _ _ H90cols). cbn [mbind outcome_bind].
  rewrite Hrows2, <- list_fmap_compose.
  assert (restrict cols90 ∘ row2 <$> rows df =
          restrict cols90 <$> (row2 <$> rows df)) as ->
    by apply list_fmap_compose.
  rewrite sum_axis1_restrict.
  2:{ intros r' c (r & -> & Hr)%list_elem_of_fmap Hc. unfold row2.
      destruct (Hnum_am r Hr) as [a Ha]. cbv zeta.
      rewrite cell_of_insert. case_decide.
      - rewrite (cell_of_insert r "Aging Sum" _ "Amount").
        rewrite decide_False, Ha by done.
        destruct (QMicromega.Qlt_bool 0 (num_of (CNum a))); [by eauto|].
        rewrite cell_of_insert, decide_True by done. unfold sum_cells. eauto.
      - rewrite cell_of_insert. case_decide; [unfold sum_cells; by eauto|].
        apply Hnum_ag; [done|]. by apply H90. }
  cbn [mbind outcome_bind mret outcome_ret]. f_equal.
  apply DataFrame_eq; cbn [columns rows].
  - unfold set_col. cbn [columns]. by rewrite Hcols2.
  - rewrite <- list_fmap_compose.
    by erewrite rows_set_col_fmap.
Qed.

Lemma sum_cells_eq cols r :
  sum_cells cols r = CNum (Qsum (num_of <$> (cell_of r <$> cols))).
Proof.
  unfold sum_cells. do 3 f_equal. apply list_fmap_ext.
  intros i c Hc. apply cell_of_restrict. by eapply list_elem_of_lookup_2.
Qed.

Lemma sum_cells_insert cols r k v :
  k ∉ cols → sum_cells cols (<[k := v]> r) = sum_cells cols r.
Proof.
  intros Hk. rewrite !sum_cells_eq. do 3 f_equal. apply list_fmap_ext.
  intros i c Hc. rewrite cell_of_insert, decide_False; [done|].
  intros ->. apply Hk. by eapply list_elem_of_lookup_2.
Qed.

Lemma cell_of_derived_row_other r k :
  k ∉ derived_labels → cell_of (derived_row r) k = cell_of r k.
Proof.
  intros Hk. unfold derived_row. cbv zeta.
  rewrite !cell_of_insert.
  rewrite !decide_False; [done|..]; intros <-; apply Hk;
    by apply (bool_decide_unpack _); vm_compute.
Qed.

Lemma cell_of_derived_row_aging_sum r :
  cell_of (derived_row r) "Aging Sum" = sum_cells aging_cols r.
Proof.
  unfold derived_row. cbv zeta. rewrite !cell_of_insert.
  by rewrite !decide_False, decide_True by done.
Qed.

Lemma cell_of_derived_row_total r :
  cell_of (derived_row r) "Total Outstanding" =
  if QMicromega.Qlt_bool 0 (num_of (cell_of r "Amount"))
  then cell_of r "Amount" else sum_cells aging_cols r.
Proof.
  unfold derived_row. cbv zeta. rewrite !cell_of_insert.
  by rewrite !decide_False, !decide_True by done.
Qed.

Lemma cell_of_derived_row_over_90 r :
  cell_of (derived_row r) ">90 Days" = sum_cells over_90_cols r.
Proof.
  unfold derived_row. cbv zeta. rewrite cell_of_insert, decide_True by done.
  rewrite !sum_cells_insert; [done|..];
    by apply (bool_decide_unpack _); vm_compute.
Qed.

(** ** Lines 74-90 together *)

Lemma calculations_Done df :
  "Amount" :: aging_cols ⊆ columns df →
  calculations df =
  Done {| columns :=
            add_column (add_column (add_column (columns df) "Aging Sum")
                                   "Total Outstanding") ">90 Days";
          rows := calc_row <$> rows df |}.
Proof.
  intros Hsub. unfold calculations.
  rewrite coerce_numeric_Done by done. cbn [mbind outcome_bind].
  rewrite derived_columns_Done; cbn [columns rows].
  - by rewrite <- list_fmap_compose.
  - done.
  - intros r' c (r & -> & Hr)%list_elem_of_fmap Hc.
    by apply coerce_row_numeric.
Qed.

Lemma required_amount_aging cs :
  required_ar_cols ⊆ cs → "Amount" :: aging_cols ⊆ cs.
Proof.
  intros H c Hc. apply H. unfold required_ar_cols.
  rewrite elem_of_app. apply elem_of_cons in Hc as [->|Hc]; [left|by right].
  by apply (bool_decide_unpack _); vm_compute.
Qed.

(** The cells of a row the calculations have produced. *)
Lemma calc_row_cells r0 :
  let r := calc_row r0 in
  ∃ amount buckets,
    length buckets = 8 ∧
    cell_of r "Amount" = CNum amount ∧
    cell_of r <$> aging_cols = CNum <$> buckets ∧
    cell_of r <$> over_90_cols = CNum <$> drop 3 buckets ∧
    cell_of r "Aging Sum" = CNum (Qsum buckets) ∧
    cell_of r "Total Outstanding" =
      CNum (if QMicromega.Qlt_bool 0 amount then amount else Qsum buckets) ∧
    cell_of r ">90 Days" = CNum (Qsum (drop 3 buckets)).
Proof.
  cbv zeta. unfold calc_row. set (r1 := coerce_row r0).
  assert (∀ c, c ∈ "Amount" :: aging_cols → ∃ q, cell_of r1 c = CNum q)
    as Hnum by (intros c Hc; by apply coerce_row_numeric).
  assert (∀ c, c ∈ "Amount" :: aging_cols →
    cell_of (derived_row r1) c = cell_of r1 c) as Hkeep.
  { intros c Hc. apply cell_of_derived_row_other.
    assert (Forall (λ c, c ∉ derived_labels) ("Amount" :: aging_cols)) as HF
      by by apply (bool_decide_unpack _); vm_compute.
    by eapply (proj1 (Forall_forall _ _)) in HF. }
  destruct (Hnum "Amount") as [a Ha]; [by left|].
  exists a, (num_of <$> (cell_of r1 <$> aging_cols)).
  assert (∀ cols, cols ⊆ aging_cols →
    cell_of (derived_row r1) <$> cols =
    CNum <$> (num_of <$> (cell_of r1 <$> cols))) as Hcols.
  { intros cols Hsub. rewrite <- !list_fmap_compose. apply list_fmap_ext.
    intros i c Hc%list_elem_of_lookup_2. unfold compose.
    assert (c ∈ "Amount" :: aging_cols) as Hc' by (right; by apply Hsub).
    rewrite Hkeep by exact Hc'. destruct (Hnum c Hc') as [q Hq].
    rewrite Hq. reflexivity. }
  split; [by rewrite !length_fmap|].
  split; [by rewrite Hkeep, Ha by by left|].
  split; [by apply Hcols|]. split.
  { rewrite Hcols by (by apply (bool_decide_unpack _); vm_compute). done. }
  rewrite cell_of_derived_row_aging_sum, cell_of_derived_row_total,
    cell_of_derived_row_over_90, !sum_cells_eq, Ha. cbn [num_of].
  split; [done|]. split; [|done].
  by destruct (QMicromega.Qlt_bool 0 a).
Qed.

Lemma calculations_rows df :
  required_ar_cols ⊆ columns df →
  ∃ df', calculations df = Done df' ∧ rows df' = calc_row <$> rows df.
Proof.
  intros H%required_amount_aging. eexists. split.
  - by apply calculations_Done.
  - done.
Qed.


(** Sums of non-negative numbers. *)
Lemma foldl_Qplus_acc (a : Q) (l : list Q) :
  (foldl Qplus a l == a + Qsum l)%Q.
Proof.
  unfold Qsum. revert a. induction l as [|x l IH]; intros a; cbn.
  - lra.
  - pose proof (IH (a + x)%Q). pose proof (IH (0 + x)%Q). lra.
Qed.

Lemma Qsum_cons (x : Q) (l : list Q) : (Qsum (x :: l) == x + Qsum l)%Q.
Proof.
  unfold Qsum at 1. cbn. pose proof (foldl_Qplus_acc (0 + x) l). lra.
Qed.

Lemma Qsum_nonneg (l : list Q) :
  (∀ b, b ∈ l → (0 <= b)%Q) → (0 <= Qsum l)%Q.
Proof.
  induction l as [|x l IH]; intros Hl.
  - unfold Qsum. cbn. lra.
  - pose proof (Qsum_cons x l). pose proof (Hl x ltac:(by left)).
    assert (0 <= Qsum l)%Q by (apply IH; intros b Hb; apply Hl; by right).
    lra.
Qed.

Lemma Qsum_drop_le (n : nat) (l : list Q) :
  (∀ b, b ∈ l → (0 <= b)%Q) → (Qsum (drop n l) <= Qsum l)%Q.
Proof.
  revert n. induction l as [|x l IH]; intros n Hl.
  - rewrite drop_nil. lra.
  - destruct n as [|n]; [cbn; lra|]. cbn [drop].
    pose proof (Qsum_cons x l). pose proof (Hl x ltac:(by left)).
    assert (Qsum (drop n l) <= Qsum l)%Q
      by (apply IH; intros b Hb; apply Hl; by right).
    lra.
Qed.




(** ** Lines 68-72: validation *)

Lemma validate_Done df cols :
  cols ⊆ columns df → validate df cols = Done ().
Proof.
  induction cols as [|c cols IH]; intros Hsub; cbn; [done|].
  rewrite decide_True by (apply Hsub; by left).
  apply IH. intros x Hx. apply Hsub. by right.
Qed.

Lemma validate_missing df cols c :
  c ∈ cols → c ∉ columns df →
  ∃ c', c' ∈ cols ∧ (c' ∉ columns df) ∧
    validate df cols =
    Stopped (st_error ("❌ Missing column in AR_Aging: " ++ c')).
Proof.
  induction cols as [|x cols IH]; intros Hc Hnot; [by inversion Hc|].
  cbn [validate]. destruct (decide (x ∈ columns df)) as [Hx|Hx].
  - destruct IH as (c' & ? & ? & ?); [|done|].
    + apply elem_of_cons in Hc as [->|]; done.
    + exists c'. split; [by right|done].
  - exists x. split; [by left|done].
Qed.

Lemma columns_set_scalar df c v :
  columns (set_scalar df c v) = add_column (columns df) c.
Proof. done. Qed.

Lemma elem_of_add_column cs c x : x ∈ add_column cs c ↔ x ∈ cs ∨ x = c.
Proof.
  unfold add_column. case_decide.
  - split; [by left|]. by intros [?| ->].
  - by rewrite elem_of_app, list_elem_of_singleton.
Qed.


(** ** Lines 102-105: the executive filter *)

Lemma cell_eqb_CStr c name : cell_eqb c (CStr name) = true ↔ c = CStr name.
Proof.
  destruct c as [q|s|]; cbn; try (split; [discriminate|congruence]).
  rewrite String.eqb_eq. split; congruence.
Qed.

Lemma select_rows_fmap (p : gmap string cell → bool) rs :
  select_rows (p <$> rs) rs = filter (λ r, p r = true) rs.
Proof.
  induction rs as [|r rs IH]; [done|]. cbn [fmap list_fmap select_rows].
  rewrite filter_cons. fold (fmap p rs). rewrite IH.
  destruct (p r); [by rewrite decide_True|by rewrite decide_False].
Qed.

Lemma filter_exec_Done df name :
  "Executive Name" ∈ columns df →
  ∃ df', filter_exec df (CStr name) = Done df' ∧ is_filter_of name df df'.
Proof.
  intros Hcol. unfold filter_exec. rewrite get_col_Done by done.
  cbn [mbind outcome_bind mret outcome_ret]. eexists. split; [done|].
  unfold is_filter_of, boolean_index, series_eq, col_values.
  cbn [columns rows]. rewrite <- list_fmap_compose, select_rows_fmap.
  assert (filter (λ r, (((λ c, cell_eqb c (CStr name)) ∘
                         (λ r, cell_of r "Executive Name")) r) = true)
                 (rows df) =
          filter (λ r, cell_of r "Executive Name" = CStr name) (rows df))
    as ->.
  { apply list_filter_iff. intros r. apply cell_eqb_CStr. }
  split; [done|]. split; [done|].
  apply (filter_app_complement
    (λ r, cell_of r "Executive Name" = CStr name)).
Qed.

(** C7. Choosing "All" leaves the three frames as they are.  Choosing a
    name other than "All" gives, for each of the three frames, exactly the
    rows whose "Executive Name" is that name, and those rows with the rows
    dropped make up the original frame. *)
Theorem executive_filter_spec (name : string) ar ex inv :
  apply_filter (CStr "All") (ar, ex, inv) = Done (ar, ex, inv) ∧
  (name ≠ "All" →
   "Executive Name" ∈ columns ar →
   "Executive Name" ∈ columns ex →
   "Executive Name" ∈ columns inv →
   ∃ ar' ex' inv',
     apply_filter (CStr name) (ar, ex, inv) = Done (ar', ex', inv') ∧
     is_filter_of name ar ar' ∧
     is_filter_of name ex ex' ∧
     is_filter_of name inv inv').
Proof.
  split; [done|]. intros Hname Har Hex Hinv.
  destruct (filter_exec_Done ar name Har) as (ar' & Ear & ?).
  destruct (filter_exec_Done ex name Hex) as (ex' & Eex & ?).
  destruct (filter_exec_Done inv name Hinv) as (inv' & Einv & ?).
  exists ar', ex', inv'. split; [|done].
  unfold apply_filter.
  assert (cell_eqb (CStr name) (CStr "All") = false) as ->.
  { cbn. by apply String.eqb_neq. }
  by rewrite Ear, Eex, Einv.
Qed.

(** ** Lines 99-100: the executive selector *)

Lemma elem_of_dropna (s : Series) c : c ∈ dropna s ↔ c ∈ s ∧ c ≠ CNaN.
Proof.
  unfold dropna. rewrite list_elem_of_filter.
  split.
  - intros [H1 H2]. split; [done|]. by intros ->.
  - intros [H1 H2]. split; [|done]. by destruct c.
Qed.

Lemma existsb_cell_eqb_CStr n (seen : list cell) :
  existsb (cell_eqb (CStr n)) seen = true ↔ CStr n ∈ seen.
Proof.
  induction seen as [|y seen IH]; cbn.
  - split; [discriminate|]. by intros ?%elem_of_nil.
  - rewrite orb_true_iff, IH, elem_of_cons.
    destruct y as [q|s|]; cbn in *;
      try (split; [intros [[=]|?]; by right|intros [[=]|?]; by right]).
    rewrite String.eqb_eq. split; (intros [?|?]; [left; congruence|by right]).
Qed.

Lemma unique_from_text seen (s : Series) :
  all_text s →
  all_text (unique_from seen s) ∧
  NoDup (unique_from seen s) ∧
  ∀ c, c ∈ unique_from seen s ↔ c ∈ s ∧ c ∉ seen.
Proof.
  revert seen. induction s as [|x s IH]; intros seen Hs; cbn.
  - split; [done|]. split; [constructor|]. intros c.
    split; [by intros ?%elem_of_nil|]. by intros [?%elem_of_nil _].
  - assert (all_text s) as Hs' by (intros c Hc; apply Hs; by right).
    destruct (Hs x) as [n ->]; [by left|].
    destruct (existsb (cell_eqb (CStr n)) seen) eqn:E.
    + apply existsb_cell_eqb_CStr in E.
      destruct (IH seen Hs') as (Ht & Hnd & Hin).
      split; [done|]. split; [done|]. intros c. rewrite Hin, elem_of_cons.
      split; [intros [? ?]; split; [by right|done]|].
      intros [[->|?] ?]; done.
    + assert (CStr n ∉ seen) as Hn.
      { intros H%existsb_cell_eqb_CStr. congruence. }
      destruct (IH (CStr n :: seen) Hs') as (Ht & Hnd & Hin).
      split.
      { intros c [->|Hc]%elem_of_cons; [by eauto|by apply Ht]. }
      split.
      { constructor; [|done]. rewrite Hin, elem_of_cons.
        intros [_ Hno]. apply Hno. by left. }
      intros c. rewrite !elem_of_cons, Hin, elem_of_cons.
      destruct (decide (c = CStr n)) as [->|Hc].
      * split; [intros _; split; [by left|done]|by left].
      * split.
        -- intros [?|[? Hno]]; [done|]. split; [by right|].
           intros ?. apply Hno. by right.
        -- intros [[?|?] Hno]; [done|]. right. split; [done|].
           intros [?|?]; done.
Qed.

Lemma insert_sorted_text x (l : list cell) :
  all_text (x :: l) →
  ∃ l', insert_sorted x l = Done l' ∧ l' ≡ₚ x :: l.
Proof.
  induction l as [|y l IH]; intros Ht; cbn.
  - by eexists.
  - destruct (Ht x) as [a ->]; [by left|].
    destruct (Ht y) as [b ->]; [right; by left|]. cbn.
    destruct (String.ltb a b); [by eexists|].
    destruct IH as (l' & -> & Hp).
    { intros c [->|Hc]%elem_of_cons; [by eauto|].
      apply Ht. right. by right. }
    cbn. eexists. split; [done|]. rewrite Hp. apply Permutation_swap.
Qed.

Lemma sort_into_text (acc l : list cell) :
  all_text acc → all_text l →
  ∃ l', sort_into acc l = Done l' ∧ l' ≡ₚ acc ++ l.
Proof.
  revert acc. induction l as [|x l IH]; intros acc Hacc Hl; cbn.
  - eexists. split; [done|]. by rewrite app_nil_r.
  - destruct (insert_sorted_text x acc) as (acc' & -> & Hp).
    { intros c [->|Hc]%elem_of_cons; [apply Hl; by left|by apply Hacc]. }
    cbn. destruct (IH acc') as (l' & -> & Hp').
    + intros c Hc. rewrite Hp in Hc.
      apply elem_of_cons in Hc as [->|Hc]; [apply Hl; by left|by apply Hacc].
    + intros c Hc. apply Hl. by right.
    + eexists. split; [done|]. rewrite Hp', Hp. cbn [app].
      apply Permutation_middle.
Qed.

Lemma all_text_names (l : list cell) :
  all_text l → ∃ ns : list string, l = CStr <$> ns.
Proof.
  induction l as [|c l IH]; intros Ht.
  - by exists [].
  - destruct (Ht c) as [n ->]; [by left|].
    destruct IH as [ns ->]; [intros c Hc; apply Ht; by right|].
    by exists (n :: ns).
Qed.

#[local] Instance CStr_inj : Inj (=) (=) CStr.
Proof. by intros a b [= ->]. Qed.

Lemma selectbox_offers (options : list cell) c :
  c ∈ options → ∃ i, selectbox options i = c.
Proof.
  intros (i & Hi)%list_elem_of_lookup. exists i.
  unfold selectbox. by rewrite Hi.
Qed.

(** C9, as amended.  The selector is built from the aging frame alone: on
    an aging frame whose "Executive Name" cells are names or blanks it
    offers "All" followed by the names that occur in that column, each one
    once, and nothing else; every option can be picked. *)
Theorem executive_options_spec df :
  "Executive Name" ∈ columns df →
  (∀ r, r ∈ rows df →
        cell_of r "Executive Name" = CNaN ∨
        ∃ n, cell_of r "Executive Name" = CStr n) →
  ∃ names : list string,
    executives df = Done (CStr "All" :: (CStr <$> names)) ∧
    NoDup names ∧
    (∀ n, n ∈ names ↔
          ∃ r, r ∈ rows df ∧ cell_of r "Executive Name" = CStr n) ∧
    (∀ c, c ∈ CStr "All" :: (CStr <$> names) →
          ∃ i, selectbox (CStr "All" :: (CStr <$> names)) i = c).
Proof.
  intros Hcol Hcells. unfold executives. rewrite get_col_Done by done.
  cbn [mbind outcome_bind]. set (s := col_values df "Executive Name").
  assert (all_text (dropna s)) as Ht.
  { intros c [Hc Hna]%elem_of_dropna.
    apply list_elem_of_fmap in Hc as (r & -> & Hr).
    destruct (Hcells r Hr) as [?|?]; [congruence|done]. }
  destruct (unique_from_text [] (dropna s) Ht) as (Htu & Hnd & Hin).
  fold (unique (dropna s)) in Htu, Hnd, Hin.
  destruct (sort_into_text [] (unique (dropna s))) as (l & Hsort & Hp);
    [by intros ? ?%elem_of_nil|done|].
  unfold sorted. rewrite Hsort. cbn [mbind outcome_bind mret outcome_ret].
  cbn [app] in Hp.
  destruct (all_text_names l) as [names ->].
  { intros c Hc. apply Htu. by rewrite <- Hp. }
  exists names. split; [done|]. split.
  { rewrite <- Hp in Hnd. by apply NoDup_fmap_1 in Hnd. }
  split.
  - intros n. rewrite <- (list_elem_of_fmap_inj CStr).
    rewrite Hp, Hin, elem_of_dropna. unfold s, col_values.
    rewrite list_elem_of_fmap. split.
    + intros [[(r & -> & Hr) _] _]. by exists r.
    + intros (r & Hr & Hn). split; [|by intros ?%elem_of_nil].
      split; [|done]. by exists r.
  - intros c Hc. by apply selectbox_offers.
Qed.

(** ** Lines 158-162: pending and achievement *)

Lemma series_arith_fmap {A} op (f g : A → cell) (l : list A) :
  (∀ x, x ∈ l → is_str (f x) = false ∧ is_str (g x) = false) →
  series_arith op (f <$> l) (g <$> l) =
  Done ((λ x, nan_arith op (f x) (g x)) <$> l).
Proof.
  induction l as [|x l IH]; intros Hl; [done|].
  cbn [fmap list_fmap series_arith].
  fold (fmap f l) (fmap g l). rewrite IH by (intros y Hy; apply Hl; by right).
  destruct (Hl x) as [Hf Hg]; [by left|].
  by destruct (f x), (g x).
Qed.

Lemma series_div_fmap {A} (f g : A → cell) (l : list A) :
  (∀ x, x ∈ l → is_str (f x) = false ∧ is_str (g x) = false) →
  series_div (f <$> l) (g <$> l) = Done ((λ x, nan_div (f x) (g x)) <$> l).
Proof.
  induction l as [|x l IH]; intros Hl; [done|].
  cbn [fmap list_fmap series_div].
  fold (fmap f l) (fmap g l). rewrite IH by (intros y Hy; apply Hl; by right).
  destruct (Hl x) as [Hf Hg]; [by left|].
  by destruct (f x), (g x).
Qed.

Lemma series_mul_scalar_fmap {A} (f : A → cell) (l : list A) k :
  (∀ x, x ∈ l → is_str (f x) = false) →
  series_mul_scalar (f <$> l) k = Done ((λ x, nan_mul_scalar k (f x)) <$> l).
Proof.
  intros Hl. unfold series_mul_scalar.
  rewrite (mapM_Done _ (nan_mul_scalar k)).
  - by rewrite <- list_fmap_compose.
  - intros c (x & -> & Hx)%list_elem_of_fmap.
    specialize (Hl x Hx). by destruct (f x).
Qed.

Lemma is_str_nan_div x y : is_str (nan_div x y) = false.
Proof.
  destruct x as [a| |], y as [b| |]; try done.
  cbn. unfold Qdiv_float. by destruct (Qeq_bool b 0).
Qed.

Lemma executive_performance_Done st wb :
  uploaded_file st = Some wb →
  page st = "Executive Performance" →
  "Target Amount" ∈ columns (exec_df st) →
  "Actual Collected" ∈ columns (exec_df st) →
  (∀ r, r ∈ rows (exec_df st) →
        is_str (cell_of r "Target Amount") = false ∧
        is_str (cell_of r "Actual Collected") = false) →
  ∃ st', executive_performance st = Done st' ∧
    ar_df st' = ar_df st ∧ inv_df st' = inv_df st ∧
    rows (exec_df st') = perf_row <$> rows (exec_df st).
Proof.
  intros Hup Hpage Ht Ha Hnum. unfold executive_performance.
  rewrite Hup, decide_True by done.
  rewrite !get_col_Done by done. cbn [mbind outcome_bind].
  unfold col_values at 1 2. rewrite series_arith_fmap by done.
  cbn [mbind outcome_bind].
  set (ex1 := set_col (exec_df st) "Pending" _).
  assert (rows ex1 =
    (λ r, <["Pending" := nan_arith Qminus (cell_of r "Target Amount")
                           (cell_of r "Actual Collected")]> r)
    <$> rows (exec_df st)) as Hrows1 by apply rows_set_col_own.
  assert (∀ c, c ∈ columns (exec_df st) → c ∈ columns ex1) as Hcols1.
  { intros c Hc. apply elem_of_columns_set_col. by left. }
  rewrite !get_col_Done by by apply Hcols1. cbn [mbind outcome_bind].
  unfold col_values, replace_zero_nan.
  rewrite Hrows1, <- !list_fmap_compose.
  rewrite series_div_fmap.
  2:{ intros r Hr. unfold compose. rewrite !cell_of_insert.
      rewrite !decide_False by done. destruct (Hnum r Hr) as [H1 H2].
      split; [done|]. destruct (cell_of r "Target Amount") as [q| |]; try done.
      cbn. by destruct (Qeq_bool q 0). }
  cbn [mbind outcome_bind].
  rewrite series_mul_scalar_fmap by (intros; apply is_str_nan_div).
  cbn [mbind outcome_bind mret outcome_ret].
  eexists. split; [done|]. cbn [ar_df inv_df exec_df].
  split; [done|]. split; [done|].
  unfold fillna. rewrite <- list_fmap_compose.
  by erewrite rows_set_col_fmap.
Qed.

Lemma cell_of_perf_row_other r k :
  k ≠ "Pending" → k ≠ "Achievement %" → cell_of (perf_row r) k = cell_of r k.
Proof.
  intros H1 H2. unfold perf_row. cbv zeta.
  rewrite !cell_of_insert. by rewrite !decide_False by done.
Qed.

Lemma cell_of_perf_row_pending r :
  cell_of (perf_row r) "Pending" =
  nan_arith Qminus (cell_of r "Target Amount") (cell_of r "Actual Collected").
Proof.
  unfold perf_row. cbv zeta. rewrite !cell_of_insert.
  by rewrite decide_False, decide_True by done.
Qed.

Lemma cell_of_perf_row_achievement r :
  cell_of (perf_row r) "Achievement %" =
  fillna_cell 0
    (nan_mul_scalar 100
       (nan_div (cell_of r "Actual Collected")
                (replace_zero_nan_cell (cell_of r "Target Amount")))).
Proof.
  unfold perf_row. cbv zeta. rewrite !cell_of_insert.
  by rewrite decide_True, !decide_False by done.
Qed.


(** ** Lines 37-105 as a whole *)

Lemma pipeline_inputs st st' :
  pipeline st = Done st' →
  uploaded_file st' = uploaded_file st ∧ month_input st' = month_input st ∧
  page st' = page st ∧ exec_choice st' = exec_choice st.
Proof.
  unfold pipeline. destruct (uploaded_file st) as [wb|] eqn:Hup.
  2:{ intros [= <-]. by rewrite Hup. }
  destruct (read_sheets wb) as [[[ar ex] inv]| |];
    cbn [mbind outcome_bind]; try discriminate.
  case_decide; try discriminate.
  destruct (validate _ _); cbn [mbind outcome_bind]; try discriminate.
  destruct (calculations _) as [ar'| |]; cbn [mbind outcome_bind];
    try discriminate.
  destruct (empty ar'); try discriminate.
  destruct (executives ar'); cbn [mbind outcome_bind]; try discriminate.
  destruct (apply_filter _ _) as [[[ar'' ex''] inv'']| |];
    cbn [mbind outcome_bind mret outcome_ret]; try discriminate.
  intros [= <-]. done.
Qed.

Lemma pipeline_ext st1 st2 wb :
  uploaded_file st1 = Some wb →
  uploaded_file st2 = uploaded_file st1 →
  month_input st2 = month_input st1 →
  page st2 = page st1 →
  exec_choice st2 = exec_choice st1 →
  pipeline st2 = pipeline st1.
Proof.
  intros Hup H1 H2 H3 H4. unfold pipeline. by rewrite H1, H2, H3, H4, Hup.
Qed.


(** C10. Only the aging sheet is validated.  With a targets sheet that has
    no "Executive Name" column, picking an executive passes the validation
    and then fails on the unguarded column access of the filter; with one
    that has no "Target Amount" column, the pipeline completes and the
    "Executive Performance" page fails on its first column access.  Both
    are uncaught [KeyError]s, not the missing-column message. *)
Theorem unvalidated_sheets_raise :
  (∃ st,
     validate (set_scalar (strip_columns spec_example_aging) "Month"
                          (CStr "Jan-2026"))
              required_ar_cols = Done () ∧
     uploaded_file st =
       Some (workbook spec_example_aging targets_without_executive
                      example_invoices) ∧
     pipeline st = Raised (KeyError "Executive Name")) ∧
  (∃ st st',
     uploaded_file st =
       Some (workbook spec_example_aging targets_without_target
                      example_invoices) ∧
     pipeline st = Done st' ∧
     executive_performance st' = Raised (KeyError "Target Amount")).
Proof.
  split.
  - exists (session (workbook spec_example_aging targets_without_executive
                              example_invoices)
                    "Jan-2026" "Overview Dashboard" 1).
    split; [by vm_compute|]. split; [done|]. by vm_compute.
  - eexists (session (workbook spec_example_aging targets_without_target
                               example_invoices)
                     "Jan-2026" "Executive Performance" 0), _.
    split; [done|]. split; [vm_compute; reflexivity|].
    vm_compute. reflexivity.
Qed.

(** * Further properties *)

(** ** Lines 68-72: validation *)

Lemma validate_Done_inv df cols :
  validate df cols = Done () → cols ⊆ columns df.
Proof.
  induction cols as [|c cols IH]; cbn; intros H x Hx.
  - by apply elem_of_nil in Hx.
  - destruct (decide (c ∈ columns df)) as [Hc|Hc]; [|discriminate].
    apply elem_of_cons in Hx as [->|Hx]; [done|by apply IH].
Qed.

(** The validation passes exactly when every required column is there;
    it never raises. *)
Theorem validate_Done_iff df cols :
  (validate df cols = Done () ↔ cols ⊆ columns df) ∧
  ∀ e, validate df cols ≠ Raised e.
Proof.
  split; [split; [apply validate_Done_inv|apply validate_Done]|].
  intros e. induction cols as [|c cols IH]; cbn; [done|].
  by case_decide.
Qed.

(** The column named in the message is the first missing one, in the
    order of the list. *)
Theorem validate_first_missing df pre c post :
  pre ⊆ columns df → c ∉ columns df →
  validate df (pre ++ c :: post) =
  Stopped (st_error ("❌ Missing column in AR_Aging: " ++ c)).
Proof.
  intros Hpre Hc. induction pre as [|x pre IH]; cbn.
  - by rewrite decide_False.
  - rewrite decide_True by (apply Hpre; by left).
    apply IH. intros y Hy. apply Hpre. by right.
Qed.

(** ** Lines 37-58: what stops a run before the validation *)

(** A workbook that lacks one of the three sheets stops the run with the
    read error, whatever the month and the columns are. *)
Theorem pipeline_read_error st wb :
  uploaded_file st = Some wb →
  wb !! "AR_Aging" = None ∨ wb !! "Executive_Targets" = None ∨
    wb !! "Invoice_Details" = None →
  pipeline st =
  Stopped (st_error "❌ Error reading Excel. Check sheet names.").
Proof.
  intros Hup Hmiss. unfold pipeline, read_sheets, read_excel. rewrite Hup.
  destruct (wb !! "AR_Aging"), (wb !! "Executive_Targets"),
    (wb !! "Invoice_Details"); try done.
  by destruct Hmiss as [?|[?|?]].
Qed.


(** ** Lines 37-105: how a run goes through *)

(** The options for a column of names and blanks. *)
Lemma executives_text df :
  "Executive Name" ∈ columns df →
  (∀ r, r ∈ rows df →
        cell_of r "Executive Name" = CNaN ∨
        ∃ n, cell_of r "Executive Name" = CStr n) →
  ∃ names : list string,
    executives df = Done (CStr "All" :: (CStr <$> names)) ∧
    NoDup names ∧
    CStr <$> names ≡ₚ unique (dropna (col_values df "Executive Name")) ∧
    ∀ n, n ∈ names ↔
         ∃ r, r ∈ rows df ∧ cell_of r "Executive Name" = CStr n.
Proof.
  intros Hcol Hcells. unfold executives. rewrite get_col_Done by done.
  cbn [mbind outcome_bind]. set (s := col_values df "Executive Name").
  assert (all_text (dropna s)) as Ht.
  { intros c [Hc Hna]%elem_of_dropna.
    apply list_elem_of_fmap in Hc as (r & -> & Hr).
    destruct (Hcells r Hr) as [?|?]; [congruence|done]. }
  destruct (unique_from_text [] (dropna s) Ht) as (Htu & Hnd & Hin).
  fold (unique (dropna s)) in Htu, Hnd, Hin.
  destruct (sort_into_text [] (unique (dropna s))) as (l & Hsort & Hp);
    [by intros ? ?%elem_of_nil|done|].
  unfold sorted. rewrite Hsort. cbn [mbind outcome_bind mret outcome_ret].
  cbn [app] in Hp.
  destruct (all_text_names l) as [names ->].
  { intros c Hc. apply Htu. by rewrite <- Hp. }
  exists names. split; [done|]. split.
  { rewrite <- Hp in Hnd. by apply NoDup_fmap_1 in Hnd. }
  split; [done|].
  intros n. rewrite <- (list_elem_of_fmap_inj CStr).
  rewrite Hp, Hin, elem_of_dropna. unfold s, col_values.
  rewrite list_elem_of_fmap. split.
  - intros [[(r & -> & Hr) _] _]. by exists r.
  - intros (r & Hr & Hn). split; [|by intros ?%elem_of_nil].
    split; [|done]. by exists r.
Qed.

Lemma rows_loaded month df :
  rows (loaded month df) =
  (λ r, <["Month" := CStr month]> r) <$> rows (strip_columns df).
Proof. apply rows_set_scalar. Qed.

Lemma columns_loaded month df :
  columns (loaded month df) = add_column (strip <$> columns df) "Month".
Proof. done. Qed.

(** The run up to the selector, on an upload that passes the checks. *)
Lemma pipeline_front st wb ar ex inv :
  uploaded_file st = Some wb →
  wb !! "AR_Aging" = Some ar →
  wb !! "Executive_Targets" = Some ex →
  wb !! "Invoice_Details" = Some inv →
  month_input st ≠ "" →
  required_ar_cols ⊆ columns (loaded (month_input st) ar) →
  pipeline st =
  (let ar1 := calculated (loaded (month_input st) ar) in
   if empty ar1 then Stopped (st_warning "No data available.")
   else
     options ← executives ar1;
     '(ar', ex', inv') ←
       apply_filter (selectbox options (exec_choice st))
         (ar1, loaded (month_input st) ex, loaded (month_input st) inv);
     mret {| uploaded_file := uploaded_file st;
             month_input := month_input st;
             page := page st;
             exec_choice := exec_choice st;
             ar_df := ar'; exec_df := ex'; inv_df := inv' |}).
Proof.
  intros Hup Har Hex Hinv Hmonth Hreq. unfold pipeline, read_sheets, read_excel.
  rewrite Hup, Har, Hex, Hinv. cbn [mbind outcome_bind].
  rewrite decide_False by done. fold (loaded (month_input st) ar).
  fold (loaded (month_input st) ex). fold (loaded (month_input st) inv).
  rewrite validate_Done by done. cbn [mbind outcome_bind].
  rewrite calculations_Done by by apply required_amount_aging.
  cbn [mbind outcome_bind]. done.
Qed.

Lemma empty_calculated df :
  required_ar_cols ⊆ columns df →
  empty (calculated df) = match rows df with [] => true | _ => false end.
Proof.
  intros Hreq. unfold empty. cbn [columns rows calculated].
  assert ("Amount" ∈
    add_column (add_column (add_column (columns df) "Aging Sum")
                           "Total Outstanding") ">90 Days") as Hin.
  { do 3 apply subseteq_add_column. apply Hreq.
    by apply (bool_decide_unpack _); vm_compute. }
  destruct (add_column _ _) as [|c cs]; [by apply elem_of_nil in Hin|].
  by destruct (rows df).
Qed.


Lemma cell_of_calc_row_other r k :
  k ∉ "Amount" :: aging_cols → k ∉ derived_labels →
  cell_of (calc_row r) k = cell_of r k.
Proof.
  intros H1 H2. unfold calc_row.
  rewrite cell_of_derived_row_other by done.
  by rewrite cell_of_coerce_row, decide_False.
Qed.


(** ** Lines 37-105: what a run that went through has left *)

Lemma elem_of_select_rows mask rs r : r ∈ select_rows mask rs → r ∈ rs.
Proof.
  revert mask. induction rs as [|x rs IH]; intros [|b mask] Hr; cbn in Hr;
    try by apply elem_of_nil in Hr.
  destruct b.
  - apply elem_of_cons in Hr as [->|Hr]; [by left|right; by eapply IH].
  - right. by eapply IH.
Qed.

Lemma sublist_select_rows mask rs : select_rows mask rs `sublist_of` rs.
Proof.
  revert mask. induction rs as [|x rs IH]; intros [|b mask]; cbn;
    try apply sublist_nil_l.
  destruct b; [by apply sublist_skip|by apply sublist_cons].
Qed.

Lemma apply_filter_Done_inv sel ar ex inv ar' ex' inv' :
  apply_filter sel (ar, ex, inv) = Done (ar', ex', inv') →
  (cell_eqb sel (CStr "All") = true ∧ ar' = ar ∧ ex' = ex ∧ inv' = inv) ∨
  (cell_eqb sel (CStr "All") = false ∧
   ar' = boolean_index ar (series_eq (col_values ar "Executive Name") sel) ∧
   ex' = boolean_index ex (series_eq (col_values ex "Executive Name") sel) ∧
   inv' = boolean_index inv (series_eq (col_values inv "Executive Name") sel)).
Proof.
  unfold apply_filter. destruct (cell_eqb sel (CStr "All")).
  { intros [= <- <- <-]. by left. }
  unfold filter_exec, get_col.
  repeat (case_decide; cbn [mbind outcome_bind mret outcome_ret];
          try discriminate).
  intros [= <- <- <-]. by right.
Qed.

Lemma pipeline_Done_inv st st' wb :
  uploaded_file st = Some wb →
  pipeline st = Done st' →
  ∃ ar ex inv options,
    wb !! "AR_Aging" = Some ar ∧
    wb !! "Executive_Targets" = Some ex ∧
    wb !! "Invoice_Details" = Some inv ∧
    month_input st ≠ "" ∧
    required_ar_cols ⊆ columns (loaded (month_input st) ar) ∧
    rows ar ≠ [] ∧
    executives (calculated (loaded (month_input st) ar)) = Done options ∧
    apply_filter (selectbox options (exec_choice st))
      (calculated (loaded (month_input st) ar),
       loaded (month_input st) ex, loaded (month_input st) inv) =
    Done (ar_df st', exec_df st', inv_df st').
Proof.
  intros Hup Hrun.
  assert (∃ ar ex inv,
    wb !! "AR_Aging" = Some ar ∧ wb !! "Executive_Targets" = Some ex ∧
    wb !! "Invoice_Details" = Some inv ∧ month_input st ≠ "" ∧
    required_ar_cols ⊆ columns (loaded (month_input st) ar))
    as (ar & ex & inv & Har & Hex & Hinv & Hmonth & Hreq).
  { revert Hrun. unfold pipeline, read_sheets, read_excel. rewrite Hup.
    destruct (wb !! "AR_Aging") as [ar|]; [|discriminate].
    destruct (wb !! "Executive_Targets") as [ex|]; [|discriminate].
    destruct (wb !! "Invoice_Details") as [inv|]; [|discriminate].
    cbn [mbind outcome_bind]. case_decide as Hm; [discriminate|].
    fold (loaded (month_input st) ar).
    destruct (validate _ _) as [[]| |] eqn:Hv; [|discriminate..].
    intros _. exists ar, ex, inv. repeat split; try done.
    by apply validate_Done_inv. }
  rewrite (pipeline_front st wb ar ex inv) in Hrun by done. cbv zeta in Hrun.
  rewrite empty_calculated in Hrun by done.
  assert (rows ar ≠ []) as Hrows.
  { intros Hr. rewrite rows_loaded in Hrun. unfold strip_columns in Hrun.
    cbn [rows] in Hrun. by rewrite Hr in Hrun. }
  destruct (rows (loaded (month_input st) ar)); [done|].
  destruct (executives _) as [options| |] eqn:Hopt; [|discriminate..].
  cbn [mbind outcome_bind] in Hrun.
  destruct (apply_filter _ _) as [[[ar' ex'] inv']| |] eqn:Hf;
    [|discriminate..].
  cbn [mbind outcome_bind mret outcome_ret] in Hrun.
  injection Hrun as <-. by exists ar, ex, inv, options.
Qed.

Lemma cell_of_loaded_month month df r :
  r ∈ rows (loaded month df) → cell_of r "Month" = CStr month.
Proof.
  rewrite rows_loaded. intros (r0 & -> & _)%list_elem_of_fmap.
  by rewrite cell_of_insert, decide_True.
Qed.

Lemma cell_of_calculated_month month df r :
  r ∈ rows (calculated (loaded month df)) → cell_of r "Month" = CStr month.
Proof.
  cbn [calculated rows]. intros (r0 & -> & Hr)%list_elem_of_fmap.
  rewrite cell_of_calc_row_other
    by (by apply (bool_decide_unpack _); vm_compute).
  by eapply cell_of_loaded_month.
Qed.

(** After a run that went through, every row of the three frames carries
    the month that was entered. *)
Theorem pipeline_month_stamped st st' wb :
  uploaded_file st = Some wb →
  pipeline st = Done st' →
  ∀ r, r ∈ (rows (ar_df st') ++ rows (exec_df st') ++ rows (inv_df st'))%list →
       cell_of r "Month" = CStr (month_input st).
Proof.
  intros Hup Hrun.
  destruct (pipeline_Done_inv st st' wb Hup Hrun)
    as (ar & ex & inv & options & _ & _ & _ & _ & _ & _ & _ & Hf).
  intros r Hr.
  assert (r ∈ rows (calculated (loaded (month_input st) ar)) ∨
          r ∈ rows (loaded (month_input st) ex) ∨
          r ∈ rows (loaded (month_input st) inv)) as Hin.
  { rewrite !elem_of_app in Hr.
    apply apply_filter_Done_inv in Hf
      as [(_ & E1 & E2 & E3)|(_ & E1 & E2 & E3)];
      rewrite E1, E2, E3 in Hr; [done|].
    cbn [boolean_index rows] in Hr.
    destruct Hr as [Hr|[Hr|Hr]]; apply elem_of_select_rows in Hr; auto. }
  destruct Hin as [Hin|[Hin|Hin]].
  - by eapply cell_of_calculated_month.
  - by eapply cell_of_loaded_month.
  - by eapply cell_of_loaded_month.
Qed.



(** ** Lines 99-100: the order of the options, and names of two kinds *)

Lemma ltb_false_neq_ltb (a b : string) :
  String.ltb b a = false → a ≠ b → String.ltb a b = true.
Proof.
  unfold String.ltb. intros Hba Hne.
  rewrite String.compare_antisym.
  destruct (String.compare b a) eqn:E; try done.
  apply String.compare_eq_iff in E. congruence.
Qed.

Lemma insert_sorted_ascending x (l l' : list cell) :
  all_text (x :: l) → ascending l →
  insert_sorted x l = Done l' → ascending l'.
Proof.
  revert l'. induction l as [|y l IH]; intros l' Ht Hs; cbn.
  - intros [= <-]. by repeat constructor.
  - destruct (Ht x) as [a ->]; [by left|].
    destruct (Ht y) as [b ->]; [right; by left|]. cbn.
    destruct (String.ltb a b) eqn:E.
    + intros [= <-]. constructor; [done|]. constructor. cbn.
      destruct (String.ltb b a) eqn:E'; [|done].
      unfold String.ltb in E, E'. rewrite String.compare_antisym in E'.
      by destruct (String.compare a b).
    + destruct (insert_sorted (CStr a) l) as [l''| |] eqn:Hins;
        cbn; [|discriminate..].
      intros [= <-]. apply Sorted_inv in Hs as [Hs Hhd].
      assert (all_text (CStr a :: l)) as Ht'.
      { intros c [->|Hc]%elem_of_cons; [by eauto|].
        apply Ht. right. by right. }
      constructor; [by apply IH|].
      destruct l as [|z l]; cbn in Hins.
      * injection Hins as <-. constructor. cbn. by rewrite E.
      * destruct (Ht z) as [c ->]; [right; right; by left|]. cbn in Hins.
        destruct (String.ltb a c).
        -- injection Hins as <-. constructor. cbn. by rewrite E.
        -- destruct (insert_sorted (CStr a) l); cbn in Hins;
             [|discriminate..].
           injection Hins as <-. constructor. by apply HdRel_inv in Hhd.
Qed.

Lemma sort_into_ascending (acc l l' : list cell) :
  all_text acc → all_text l → ascending acc →
  sort_into acc l = Done l' → ascending l'.
Proof.
  revert acc. induction l as [|x l IH]; intros acc Hacc Hl Hs; cbn.
  - by intros [= <-].
  - destruct (insert_sorted_text x acc) as (acc' & Hins & Hp).
    { intros c [->|Hc]%elem_of_cons; [apply Hl; by left|by apply Hacc]. }
    rewrite Hins. cbn. apply IH.
    + intros c Hc. rewrite Hp in Hc.
      apply elem_of_cons in Hc as [->|Hc]; [apply Hl; by left|by apply Hacc].
    + intros c Hc. apply Hl. by right.
    + eapply insert_sorted_ascending; [|done..].
      intros c [->|Hc]%elem_of_cons; [apply Hl; by left|by apply Hacc].
Qed.

Lemma ascending_names (names : list string) :
  NoDup names → ascending (CStr <$> names) →
  Sorted (λ a b, String.ltb a b = true) names.
Proof.
  induction names as [|a names IH]; intros Hnd Hs; [constructor|].
  apply NoDup_cons in Hnd as [Ha Hnd]. cbn in Hs.
  apply Sorted_inv in Hs as [Hs Hhd]. constructor; [by apply IH|].
  destruct names as [|b names]; constructor.
  apply HdRel_inv in Hhd. cbn in Hhd.
  apply ltb_false_neq_ltb; [by injection Hhd|].
  intros ->. apply Ha. by left.
Qed.

(** The options after "All" are in strictly ascending order, each name
    smaller than the next. *)
Theorem executives_ascending df :
  "Executive Name" ∈ columns df →
  (∀ r, r ∈ rows df →
        cell_of r "Executive Name" = CNaN ∨
        ∃ n, cell_of r "Executive Name" = CStr n) →
  ∃ names : list string,
    executives df = Done (CStr "All" :: (CStr <$> names)) ∧
    Sorted (λ a b, String.ltb a b = true) names.
Proof.
  intros Hcol Hcells.
  destruct (executives_text df Hcol Hcells) as (names & Hrun & Hnd & Hp & _).
  exists names. split; [done|]. apply ascending_names; [done|].
  revert Hrun. unfold executives. rewrite get_col_Done by done.
  cbn [mbind outcome_bind]. unfold sorted.
  destruct (sort_into _ _) as [l| |] eqn:Hsort; cbn; [|discriminate..].
  intros [= <-].
  assert (all_text (unique (dropna (col_values df "Executive Name")))) as Ht.
  { intros c Hc. rewrite <- Hp in Hc.
    apply list_elem_of_fmap in Hc as (n & -> & _). by eauto. }
  eapply sort_into_ascending; [| |constructor|exact Hsort]; [|done].
  by intros ? ?%elem_of_nil.
Qed.

Lemma insert_sorted_mixed x y (acc : list cell) :
  isna x = false → isna y = false → is_str x ≠ is_str y →
  insert_sorted x (y :: acc) = Raised TypeError.
Proof. by destruct x, y. Qed.

Lemma insert_sorted_kind k x (acc : list cell) :
  (∀ c, c ∈ x :: acc → isna c = false ∧ is_str c = k) →
  ∃ acc', insert_sorted x acc = Done acc' ∧ ∀ c, c ∈ acc' ↔ c ∈ x :: acc.
Proof.
  induction acc as [|y acc IH]; intros Hk; cbn.
  - by eexists.
  - destruct (Hk x) as [Hx1 Hx2]; [by left|].
    destruct (Hk y) as [Hy1 Hy2]; [right; by left|].
    assert (∃ b, cell_lt x y = Done b) as [b ->].
    { destruct x, y; cbn in *; try done; try congruence; by eexists. }
    cbn. destruct b; [by eexists|].
    destruct IH as (acc' & -> & Hin).
    { intros c [->|Hc]%elem_of_cons; [done|]. apply Hk. right. by right. }
    cbn. eexists. split; [done|]. intros c.
    rewrite !elem_of_cons, Hin, elem_of_cons. tauto.
Qed.

Lemma sort_into_mixed k (acc l : list cell) :
  acc ≠ [] →
  (∀ c, c ∈ acc → isna c = false ∧ is_str c = k) →
  (∀ c, c ∈ l → isna c = false) →
  (∃ c, c ∈ l ∧ is_str c ≠ k) →
  sort_into acc l = Raised TypeError.
Proof.
  revert acc. induction l as [|x l IH]; intros acc Hne Hacc Hl (c & Hc & Hk).
  { by apply elem_of_nil in Hc. }
  cbn. destruct (decide (is_str x = k)) as [Hx|Hx].
  - destruct (insert_sorted_kind k x acc) as (acc' & -> & Hin).
    { intros c' [->|Hc']%elem_of_cons; [|by apply Hacc].
      split; [|done]. apply Hl. by left. }
    cbn. apply IH.
    + intros ->. by apply (elem_of_nil x), Hin; left.
    + intros c' [->|Hc']%Hin%elem_of_cons; [|by apply Hacc].
      split; [|done]. apply Hl. by left.
    + intros c' Hc'. apply Hl. by right.
    + exists c. split; [|done].
      apply elem_of_cons in Hc as [->|Hc]; [done|done].
  - destruct acc as [|y acc]; [done|].
    rewrite insert_sorted_mixed; [done|..].
    + apply Hl. by left.
    + apply Hacc. by left.
    + destruct (Hacc y) as [_ <-]; [by left|done].
Qed.

Lemma sorted_mixed (l : list cell) a b :
  (∀ c, c ∈ l → isna c = false) →
  a ∈ l → is_str a = true → b ∈ l → is_str b = false →
  sorted l = Raised TypeError.
Proof.
  intros Hl Ha Hsa Hb Hsb. unfold sorted.
  destruct l as [|x l]; [by apply elem_of_nil in Ha|]. cbn.
  apply (sort_into_mixed (is_str x)).
  - done.
  - intros c ->%list_elem_of_singleton. split; [|done]. apply Hl. by left.
  - intros c Hc. apply Hl. by right.
  - destruct (is_str x) eqn:Ex.
    + exists b. split; [|congruence].
      apply elem_of_cons in Hb as [->|Hb]; [congruence|done].
    + exists a. split; [|congruence].
      apply elem_of_cons in Ha as [->|Ha]; [congruence|done].
Qed.

Lemma elem_of_unique_from seen (s : Series) c :
  c ∈ unique_from seen s → c ∈ s.
Proof.
  revert seen. induction s as [|x s IH]; intros seen; cbn; [done|].
  destruct (existsb _ _).
  - intros H. right. by eapply IH.
  - intros [->|H]%elem_of_cons; [by left|right; by eapply IH].
Qed.

Lemma unique_from_keeps (P : cell → bool) seen (s : Series) x :
  (∀ a b, cell_eqb a b = true → P a = P b) →
  x ∈ s → P x = true →
  ∃ y, (y ∈ unique_from seen s ∨ y ∈ seen) ∧ P y = true.
Proof.
  intros HP. revert seen. induction s as [|z s IH]; intros seen Hx Px.
  { by apply elem_of_nil in Hx. }
  cbn. destruct (existsb (cell_eqb z) seen) eqn:E.
  - apply elem_of_cons in Hx as [->|Hx]; [|by apply IH].
    apply existsb_exists in E as (y & Hy%list_elem_of_In & Hzy).
    exists y. split; [by right|]. by rewrite <- (HP _ _ Hzy).
  - apply elem_of_cons in Hx as [->|Hx].
    + exists z. split; [left; by left|done].
    + destruct (IH (z :: seen) Hx Px) as (y & [Hy|Hy] & Py).
      * exists y. split; [left; by right|done].
      * apply elem_of_cons in Hy as [->|Hy].
        -- exists z. split; [left; by left|done].
        -- exists y. split; [by right|done].
Qed.

Lemma executives_mixed df r1 r2 n q :
  "Executive Name" ∈ columns df →
  r1 ∈ rows df → cell_of r1 "Executive Name" = CStr n →
  r2 ∈ rows df → cell_of r2 "Executive Name" = CNum q →
  executives df = Raised TypeError.
Proof.
  intros Hcol Hr1 Hn Hr2 Hq. unfold executives. rewrite get_col_Done by done.
  cbn [mbind outcome_bind]. set (s := dropna (col_values df "Executive Name")).
  assert (CStr n ∈ s) as Hs1.
  { apply elem_of_dropna. split; [|done]. rewrite <- Hn.
    by apply (list_elem_of_fmap_2 (λ r, cell_of r "Executive Name")). }
  assert (CNum q ∈ s) as Hs2.
  { apply elem_of_dropna. split; [|done]. rewrite <- Hq.
    by apply (list_elem_of_fmap_2 (λ r, cell_of r "Executive Name")). }
  destruct (unique_from_keeps is_str [] s (CStr n)) as (a & [Ha|Ha] & Pa);
    [by intros [] []|done|done| |by apply elem_of_nil in Ha].
  destruct (unique_from_keeps
              (λ c, match c with CNum _ => true | _ => false end)
              [] s (CNum q)) as (b & [Hb|Hb] & Pb);
    [by intros [] []|done|done| |by apply elem_of_nil in Hb].
  rewrite (sorted_mixed _ a b); [done| |done|done|done|by destruct b].
  intros c Hc%elem_of_unique_from%elem_of_dropna. by destruct c, Hc.
Qed.


(** ** Lines 74-90 run twice *)

Lemma cell_of_calc_row_coerced r k :
  k ∈ "Amount" :: aging_cols →
  cell_of (calc_row r) k = fillna_cell 0 (to_numeric_cell (cell_of r k)).
Proof.
  intros Hk. unfold calc_row. rewrite cell_of_derived_row_other.
  - by rewrite cell_of_coerce_row, decide_True.
  - assert (Forall (λ c, c ∉ derived_labels) ("Amount" :: aging_cols)) as HF
      by by apply (bool_decide_unpack _); vm_compute.
    by eapply (proj1 (Forall_forall _ _)) in HF.
Qed.

Lemma sum_cells_ext cols r1 r2 :
  (∀ k, k ∈ cols → cell_of r1 k = cell_of r2 k) →
  sum_cells cols r1 = sum_cells cols r2.
Proof.
  intros H. rewrite !sum_cells_eq. do 3 f_equal. apply list_fmap_ext.
  intros i c Hc. apply H. by eapply list_elem_of_lookup_2.
Qed.

Lemma cell_of_derived_row_ext r1 r2 d :
  (∀ k, k ∈ "Amount" :: aging_cols → cell_of r1 k = cell_of r2 k) →
  d ∈ derived_labels →
  cell_of (derived_row r1) d = cell_of (derived_row r2) d.
Proof.
  intros H Hd.
  assert (sum_cells aging_cols r1 = sum_cells aging_cols r2) as Hag.
  { apply sum_cells_ext. intros k Hk. apply H. by right. }
  assert (sum_cells over_90_cols r1 = sum_cells over_90_cols r2) as H90.
  { apply sum_cells_ext. intros k Hk. apply H. right.
    revert k Hk. change (over_90_cols ⊆ aging_cols).
    by apply (bool_decide_unpack _); vm_compute. }
  unfold derived_labels in Hd.
  repeat (apply elem_of_cons in Hd as [->|Hd]).
  - by rewrite !cell_of_derived_row_aging_sum.
  - rewrite !cell_of_derived_row_total, Hag. by rewrite (H "Amount") by by left.
  - by rewrite !cell_of_derived_row_over_90.
  - by apply elem_of_nil in Hd.
Qed.

Lemma cell_of_calc_row_twice r k :
  cell_of (calc_row (calc_row r)) k = cell_of (calc_row r) k.
Proof.
  destruct (decide (k ∈ "Amount" :: aging_cols)) as [Hk|Hk].
  { rewrite (cell_of_calc_row_coerced (calc_row r)) by done.
    rewrite (cell_of_calc_row_coerced r) by done.
    destruct (cell_of r k) as [x|t|]; cbn; [done| |done].
    by destruct (str_to_float t). }
  destruct (decide (k ∈ derived_labels)) as [Hd|Hd].
  - unfold calc_row at 1 3. apply cell_of_derived_row_ext; [|done].
    intros c Hc. rewrite !cell_of_coerce_row, !decide_True by done.
    rewrite cell_of_calc_row_coerced by done.
    destruct (cell_of r c) as [x|t|]; cbn; [done| |done].
    by destruct (str_to_float t).
  - by rewrite cell_of_calc_row_other.
Qed.

(** Running the calculations on the frame they have produced succeeds and
    changes neither a label nor a cell. *)
Theorem calculations_twice df :
  required_ar_cols ⊆ columns df →
  ∃ df1 df2,
    calculations df = Done df1 ∧ calculations df1 = Done df2 ∧
    columns df2 = columns df1 ∧ records df2 = records df1.
Proof.
  intros Hreq%required_amount_aging.
  assert ("Amount" :: aging_cols ⊆ columns (calculated df)) as Hreq1.
  { intros c Hc. cbn [calculated columns].
    by do 3 apply subseteq_add_column; apply Hreq. }
  exists (calculated df), (calculated (calculated df)).
  split; [by apply calculations_Done|].
  split; [by apply (calculations_Done (calculated df))|].
  assert (columns (calculated (calculated df)) = columns (calculated df))
    as Hcols.
  { cbn [calculated columns].
    rewrite (add_column_elem _ "Aging Sum").
    2:{ apply subseteq_add_column, subseteq_add_column, elem_of_add_column.
        by right. }
    rewrite (add_column_elem _ "Total Outstanding").
    2:{ apply subseteq_add_column, elem_of_add_column. by right. }
    rewrite (add_column_elem _ ">90 Days"); [done|].
    apply elem_of_add_column. by right. }
  split; [done|]. unfold records. rewrite Hcols.
  cbn [calculated rows]. rewrite <- !list_fmap_compose.
  apply list_fmap_ext. intros i r Hr. unfold compose.
  apply list_fmap_ext. intros j c Hc. by rewrite cell_of_calc_row_twice.
Qed.

(** ** Lines 217-234: the action tracker *)

Lemma existsb_cell_eqb_texts c (l : list string) :
  existsb (cell_eqb c) (CStr <$> l) = true ↔ c ∈ (CStr <$> l).
Proof.
  induction l as [|n l IH]; cbn.
  - split; [discriminate|]. by intros ?%elem_of_nil.
  - rewrite orb_true_iff, IH, elem_of_cons, cell_eqb_CStr. done.
Qed.

(** The tracker lists exactly the invoices whose bucket is one of the five
    beyond 90 days, and gives every listed row one style per column: red
    for "181-365" and "Above 365", orange for "121-150" and "151-180",
    none for "91-120". *)
Theorem action_tracker_spec st wb :
  uploaded_file st = Some wb →
  page st = "Action Tracker" →
  "Aging Bucket" ∈ columns (inv_df st) →
  ∃ overdue_df styles,
    action_tracker st = Done (Some (overdue_df, styles)) ∧
    columns overdue_df = columns (inv_df st) ∧
    rows overdue_df =
      filter (λ r, cell_of r "Aging Bucket" ∈ (CStr <$> over_90_cols))
             (rows (inv_df st)) ∧
    styles = highlight (length (columns (inv_df st))) <$> rows overdue_df ∧
    ∀ r, r ∈ rows overdue_df →
      let style := highlight (length (columns (inv_df st))) r in
      length style = length (columns (inv_df st)) ∧
      ((cell_of r "Aging Bucket" ∈ [CStr "181-365"; CStr "Above 365"] ∧
        style = replicate (length (columns (inv_df st)))
                          "background-color:#ffcccc") ∨
       (cell_of r "Aging Bucket" ∈ [CStr "121-150"; CStr "151-180"] ∧
        style = replicate (length (columns (inv_df st)))
                          "background-color:#ffe0b3") ∨
       (cell_of r "Aging Bucket" = CStr "91-120" ∧
        style = replicate (length (columns (inv_df st))) "")).
Proof.
  intros Hup Hpage Hcol. unfold action_tracker.
  rewrite Hup, decide_True by done. rewrite get_col_Done by done.
  cbn [mbind outcome_bind mret outcome_ret]. eexists _, _. split; [done|].
  cbn [boolean_index columns rows]. split; [done|].
  assert (select_rows
            (isin (col_values (inv_df st) "Aging Bucket")
               (CStr <$> ["91-120"; "121-150"; "151-180"; "181-365";
                          "Above 365"]))
            (rows (inv_df st)) =
          filter (λ r, cell_of r "Aging Bucket" ∈ (CStr <$> over_90_cols))
                 (rows (inv_df st))) as ->.
  { unfold isin, col_values. rewrite <- list_fmap_compose, select_rows_fmap.
    apply list_filter_iff. intros r. apply existsb_cell_eqb_texts. }
  split; [done|]. split; [done|].
  intros r [Hr _]%list_elem_of_filter. cbv zeta. split.
  { unfold highlight. repeat case_match; apply length_replicate. }
  unfold over_90_cols in Hr. cbn [fmap list_fmap] in Hr.
  repeat (apply elem_of_cons in Hr as [Hr|Hr]);
    try (by apply elem_of_nil in Hr); unfold highlight; rewrite Hr.
  - right. right. done.
  - right. left. split; [by left|done].
  - right. left. split; [right; by left|done].
  - left. split; [by left|done].
  - left. split; [right; by left|done].
Qed.

(** ** Lines 110-149: the overview *)

Lemma series_sum_numeric (s : Series) :
  (∀ c, c ∈ s → ∃ q, c = CNum q) →
  series_sum s = Done (Qsum (num_of <$> s)).
Proof. intros H. unfold series_sum. by rewrite numbers_Done. Qed.

Lemma filter_all {A} (P : A → Prop) `{∀ x, Decision (P x)} (l : list A) :
  (∀ x, x ∈ l → P x) → filter P l = l.
Proof.
  induction l as [|x l IH]; intros Hl; [done|].
  rewrite filter_cons, decide_True by (apply Hl; by left).
  f_equal. apply IH. intros y Hy. apply Hl. by right.
Qed.

Lemma filter_none {A} (P : A → Prop) `{∀ x, Decision (P x)} (l : list A) :
  (∀ x, x ∈ l → ¬ P x) → filter P l = [].
Proof.
  induction l as [|x l IH]; intros Hl; [done|].
  rewrite filter_cons, decide_False by (apply Hl; by left).
  apply IH. intros y Hy. apply Hl. by right.
Qed.

Lemma insert_desc_numeric by_ r (l : list (gmap string cell)) :
  (∀ x, x ∈ r :: l → ∃ q, cell_of x by_ = CNum q) →
  descending by_ l →
  ∃ l', insert_desc by_ r l = Done l' ∧ l' ≡ₚ r :: l ∧ descending by_ l'.
Proof.
  induction l as [|y l IH]; intros Hnum Hs; cbn.
  - eexists. split; [done|]. split; [done|]. by repeat constructor.
  - destruct (Hnum r) as [a Ha]; [by left|].
    destruct (Hnum y) as [b Hb]; [right; by left|].
    rewrite Ha, Hb. cbn.
    apply StronglySorted_inv in Hs as [Hs Hall].
    destruct (QMicromega.Qlt_bool b a) eqn:E.
    + eexists. split; [done|]. split; [done|].
      apply QMicromega.Qlt_bool_iff in E.
      constructor; [by constructor|]. constructor.
      * unfold key. rewrite Ha, Hb. by apply Qlt_le_weak.
      * eapply Forall_impl; [exact Hall|]. intros z Hz. cbn in Hz.
        unfold key in *. rewrite Ha, Hb in *.
        eapply Qle_trans; [exact Hz|]. by apply Qlt_le_weak.
    + destruct IH as (l' & -> & Hp & Hs'); [|done|].
      { intros x [->|Hx]%elem_of_cons; [by eauto|].
        apply Hnum. right. by right. }
      cbn. eexists. split; [done|]. split.
      { rewrite Hp. apply Permutation_swap. }
      constructor; [done|]. rewrite Hp. constructor; [|done].
      unfold key. rewrite Ha, Hb. apply Qnot_lt_le. intros Hlt.
      apply QMicromega.Qlt_bool_iff in Hlt. congruence.
Qed.

Lemma sort_desc_into_numeric by_ (acc l : list (gmap string cell)) :
  (∀ x, x ∈ (acc ++ l)%list → ∃ q, cell_of x by_ = CNum q) →
  descending by_ acc →
  ∃ l', sort_desc_into by_ acc l = Done l' ∧ l' ≡ₚ (acc ++ l)%list ∧
        descending by_ l'.
Proof.
  revert acc. induction l as [|r l IH]; intros acc Hnum Hs; cbn.
  - eexists. split; [done|]. by rewrite app_nil_r.
  - destruct (insert_desc_numeric by_ r acc) as (acc' & -> & Hp & Hs');
      [|done|].
    { intros x [->|Hx]%elem_of_cons; apply Hnum, elem_of_app;
        [right; by left|by left]. }
    cbn. destruct (IH acc') as (l' & -> & Hp' & Hs''); [|done|].
    { intros x Hx. apply Hnum. rewrite Hp in Hx.
      rewrite elem_of_app, elem_of_cons in Hx.
      rewrite elem_of_app, elem_of_cons.
      destruct Hx as [[?|?]|?]; auto. }
    eexists. split; [done|]. split; [|done].
    rewrite Hp', Hp. cbn [app]. apply Permutation_middle.
Qed.

Lemma sort_values_desc_numeric df by_ :
  by_ ∈ columns df →
  (∀ r, r ∈ rows df → ∃ q, cell_of r by_ = CNum q) →
  ∃ sorted_rows,
    sort_values_desc df by_ =
      Done {| columns := columns df; rows := sorted_rows |} ∧
    sorted_rows ≡ₚ rows df ∧ descending by_ sorted_rows.
Proof.
  intros Hcol Hnum. unfold sort_values_desc. rewrite get_col_Done by done.
  cbn [mbind outcome_bind].
  rewrite (filter_all (λ r, isna (cell_of r by_) = false)).
  2:{ intros r Hr. by destruct (Hnum r Hr) as [q ->]. }
  rewrite (filter_none (λ r, isna (cell_of r by_) = true)).
  2:{ intros r Hr. by destruct (Hnum r Hr) as [q ->]. }
  destruct (sort_desc_into_numeric by_ [] (rows df)) as (l & -> & Hp & Hs);
    [done|constructor|].
  cbn [mbind outcome_bind mret outcome_ret]. exists l.
  by rewrite app_nil_r.
Qed.

Lemma descending_take_drop by_ n (l : list (gmap string cell)) :
  descending by_ l →
  ∀ x y, x ∈ take n l → y ∈ drop n l → (key by_ y <= key by_ x)%Q.
Proof.
  revert n. induction l as [|z l IH]; intros n Hs x y Hx Hy.
  { rewrite take_nil in Hx. by apply elem_of_nil in Hx. }
  apply StronglySorted_inv in Hs as [Hs Hall].
  destruct n as [|n]; [by apply elem_of_nil in Hx|].
  cbn in Hx, Hy. apply elem_of_cons in Hx as [->|Hx].
  - apply subseteq_drop in Hy.
    by eapply (proj1 (Forall_forall _ _)) in Hall.
  - by eapply IH.
Qed.

Lemma calculated_frame_calculated df :
  required_ar_cols ⊆ columns df → calculated_frame (calculated df).
Proof.
  intros Hreq. split; [|split].
  - intros c Hc. cbn [calculated columns].
    by do 3 apply subseteq_add_column; apply Hreq.
  - intros c Hc. cbn [calculated columns]. unfold derived_labels in Hc.
    repeat (apply elem_of_cons in Hc as [->|Hc]).
    + apply subseteq_add_column, subseteq_add_column, elem_of_add_column.
      by right.
    + apply subseteq_add_column, elem_of_add_column. by right.
    + apply elem_of_add_column. by right.
    + by apply elem_of_nil in Hc.
  - cbn [calculated rows]. intros r (r0 & -> & _)%list_elem_of_fmap.
    by exists r0.
Qed.

Lemma calculated_frame_boolean_index df mask :
  calculated_frame df → calculated_frame (boolean_index df mask).
Proof.
  intros (H1 & H2 & H3). split; [done|]. split; [done|].
  cbn [boolean_index rows]. intros r Hr%elem_of_select_rows. by apply H3.
Qed.

Lemma pipeline_calculated_frame st st' wb :
  uploaded_file st = Some wb →
  pipeline st = Done st' →
  calculated_frame (ar_df st').
Proof.
  intros Hup Hrun.
  destruct (pipeline_Done_inv st st' wb Hup Hrun)
    as (ar & ex & inv & options & _ & _ & _ & _ & Hreq & _ & _ & Hf).
  apply apply_filter_Done_inv in Hf
    as [(_ & E & _ & _)|(_ & E & _ & _)]; rewrite E.
  - by apply calculated_frame_calculated.
  - by apply calculated_frame_boolean_index, calculated_frame_calculated.
Qed.

Lemma calculated_frame_numeric df r c :
  calculated_frame df → r ∈ rows df →
  c ∈ (derived_labels ++ "Amount" :: aging_cols)%list →
  ∃ q, cell_of r c = CNum q.
Proof.
  intros (_ & _ & Hrows) Hr Hc. destruct (Hrows r Hr) as [r0 ->].
  destruct (calc_row_cells r0)
    as (a & bs & Hlen & Ha & Hbs & _ & Hs & Ht & Ho).
  apply elem_of_app in Hc as [Hc|Hc].
  - unfold derived_labels in Hc.
    repeat (apply elem_of_cons in Hc as [->|Hc]); try by eauto.
    by apply elem_of_nil in Hc.
  - apply elem_of_cons in Hc as [->|Hc]; [by eauto|].
    apply list_elem_of_lookup in Hc as [i Hi].
    assert ((cell_of (calc_row r0) <$> aging_cols) !! i =
            Some (cell_of (calc_row r0) c)) as Hci
      by by rewrite list_lookup_fmap, Hi.
    rewrite Hbs, list_lookup_fmap in Hci.
    destruct (bs !! i) as [q|]; [|done]. exists q. by injection Hci.
Qed.

Lemma overview_dashboard_Done st wb :
  uploaded_file st = Some wb →
  page st = "Overview Dashboard" →
  calculated_frame (ar_df st) →
  ∃ sorted_rows,
    sorted_rows ≡ₚ rows (ar_df st) ∧ descending ">90 Days" sorted_rows ∧
    overview_dashboard st =
    Done (Some
      {| total_outstanding :=
           Qsum (num_of <$> col_values (ar_df st) "Total Outstanding");
         overdue_90 := Qsum (num_of <$> col_values (ar_df st) ">90 Days");
         overdue_pct :=
           if QMicromega.Qlt_bool 0
                (Qsum (num_of <$> col_values (ar_df st) "Total Outstanding"))
           then (Qsum (num_of <$> col_values (ar_df st) ">90 Days") /
                 Qsum (num_of <$> col_values (ar_df st) "Total Outstanding")
                 * 100)%Q
           else 0%Q;
         customers := nunique (col_values (ar_df st) "Customer Name");
         aging_sum :=
           (λ c, (c, Qsum (num_of <$> col_values (ar_df st) c)))
             <$> aging_cols;
         top10 :=
           {| columns := ["Customer Name"; "Executive Name";
                          "Total Outstanding"; ">90 Days"];
              rows :=
                restrict ["Customer Name"; "Executive Name";
                          "Total Outstanding"; ">90 Days"]
                  <$> take 10 sorted_rows |} |}).
Proof.
  intros Hup Hpage Hcf. pose proof Hcf as (Hreq & Hder & _).
  assert (∀ c, c ∈ (derived_labels ++ "Amount" :: aging_cols)%list →
    ∀ x, x ∈ col_values (ar_df st) c → ∃ q, x = CNum q) as Hnum.
  { intros c Hc x (r & -> & Hr)%list_elem_of_fmap.
    by eapply calculated_frame_numeric. }
  assert (aging_cols ⊆ columns (ar_df st)) as Hag.
  { intros c Hc. by apply (required_amount_aging _ Hreq); right. }
  destruct (sort_values_desc_numeric (ar_df st) ">90 Days")
    as (sorted_rows & Hsort & Hp & Hs).
  { apply Hder. by apply (bool_decide_unpack _); vm_compute. }
  { intros r Hr. eapply calculated_frame_numeric; [done..|].
    by apply (bool_decide_unpack _); vm_compute. }
  exists sorted_rows. split; [done|]. split; [done|].
  unfold overview_dashboard. rewrite Hup, decide_True by done.
  rewrite (get_col_Done _ "Total Outstanding")
    by (apply Hder; by apply (bool_decide_unpack _); vm_compute).
  cbn [mbind outcome_bind].
  rewrite series_sum_numeric
    by (apply Hnum; by apply (bool_decide_unpack _); vm_compute).
  cbn [mbind outcome_bind].
  rewrite (get_col_Done _ ">90 Days")
    by (apply Hder; by apply (bool_decide_unpack _); vm_compute).
  cbn [mbind outcome_bind].
  rewrite series_sum_numeric
    by (apply Hnum; by apply (bool_decide_unpack _); vm_compute).
  cbn [mbind outcome_bind].
  rewrite (get_col_Done _ "Customer Name")
    by (apply Hreq; by apply (bool_decide_unpack _); vm_compute).
  cbn [mbind outcome_bind].
  rewrite (get_cols_Done _ _ Hag). cbn [mbind outcome_bind].
  assert (sum_axis0
            {| columns := aging_cols;
               rows := restrict aging_cols <$> rows (ar_df st) |} =
          Done ((λ c, (c, Qsum (num_of <$> col_values (ar_df st) c)))
                  <$> aging_cols)) as ->.
  { unfold sum_axis0. cbn [columns]. apply mapM_Done. intros c Hc.
    assert (col_values
              {| columns := aging_cols;
                 rows := restrict aging_cols <$> rows (ar_df st) |} c =
            col_values (ar_df st) c) as ->.
    { unfold col_values. cbn [rows]. rewrite <- list_fmap_compose.
      apply list_fmap_ext. intros i r _. by apply cell_of_restrict. }
    rewrite series_sum_numeric; [done|].
    apply Hnum, elem_of_app. right. by right. }
  cbn [mbind outcome_bind]. rewrite Hsort. cbn [mbind outcome_bind].
  rewrite get_cols_Done; [done|].
  cbn [head columns]. intros c Hc.
  repeat (apply elem_of_cons in Hc as [->|Hc]);
    try (apply Hreq; by apply (bool_decide_unpack _); vm_compute);
    try (apply Hder; by apply (bool_decide_unpack _); vm_compute).
  by apply elem_of_nil in Hc.
Qed.

Lemma Qsum_fmap_ext {A} (f g : A → Q) (l : list A) :
  (∀ x, x ∈ l → (f x == g x)%Q) → (Qsum (f <$> l) == Qsum (g <$> l))%Q.
Proof.
  induction l as [|x l IH]; intros H; [apply Qeq_refl|]. rewrite !fmap_cons.
  pose proof (Qsum_cons (f x) (f <$> l)).
  pose proof (Qsum_cons (g x) (g <$> l)).
  pose proof (H x ltac:(by left)).
  assert (Qsum (f <$> l) == Qsum (g <$> l))%Q
    by (apply IH; intros y Hy; apply H; by right).
  lra.
Qed.

Lemma Qsum_fmap_le {A} (f g : A → Q) (l : list A) :
  (∀ x, x ∈ l → (f x <= g x)%Q) → (Qsum (f <$> l) <= Qsum (g <$> l))%Q.
Proof.
  induction l as [|x l IH]; intros H; [apply Qle_refl|]. rewrite !fmap_cons.
  pose proof (Qsum_cons (f x) (f <$> l)).
  pose proof (Qsum_cons (g x) (g <$> l)).
  pose proof (H x ltac:(by left)).
  assert (Qsum (f <$> l) <= Qsum (g <$> l))%Q
    by (apply IH; intros y Hy; apply H; by right).
  lra.
Qed.

Lemma Qsum_fmap_plus {A} (f g : A → Q) (l : list A) :
  (Qsum ((λ x, f x + g x) <$> l) == Qsum (f <$> l) + Qsum (g <$> l))%Q.
Proof.
  induction l as [|x l IH]; [by vm_compute|]. rewrite !fmap_cons.
  pose proof (Qsum_cons (f x + g x) ((λ x, f x + g x)%Q <$> l)).
  pose proof (Qsum_cons (f x) (f <$> l)).
  pose proof (Qsum_cons (g x) (g <$> l)).
  lra.
Qed.

Lemma Qsum_fmap_zero {A} (l : list A) : (Qsum ((λ _, 0) <$> l) == 0)%Q.
Proof.
  induction l as [|x l IH]; [by vm_compute|]. rewrite fmap_cons.
  pose proof (Qsum_cons 0 ((λ _, 0%Q) <$> l)). lra.
Qed.

(** Totals by column and totals by row add up to the same. *)
Lemma Qsum_swap {A B} (f : A → B → Q) (la : list A) (lb : list B) :
  (Qsum ((λ a, Qsum (f a <$> lb)) <$> la) ==
   Qsum ((λ b, Qsum ((λ a, f a b) <$> la)) <$> lb))%Q.
Proof.
  induction la as [|a la IH].
  - rewrite (Qsum_fmap_zero lb). by vm_compute.
  - rewrite fmap_cons.
    pose proof (Qsum_cons (Qsum (f a <$> lb))
                  ((λ a, Qsum (f a <$> lb)) <$> la)) as H1.
    assert (Qsum ((λ b, Qsum ((λ a0, f a0 b) <$> a :: la)) <$> lb) ==
            Qsum ((λ b, f a b + Qsum ((λ a, f a b) <$> la)) <$> lb))%Q as H2.
    { apply Qsum_fmap_ext. intros b _. rewrite fmap_cons. apply Qsum_cons. }
    pose proof (Qsum_fmap_plus (f a)
                  (λ b, Qsum ((λ a, f a b) <$> la)) lb) as H3.
    cbv beta in H3. lra.
Qed.



Lemma calc_row_aging_sum r0 :
  num_of (cell_of (calc_row r0) "Aging Sum") =
  Qsum ((λ c, num_of (cell_of (calc_row r0) c)) <$> aging_cols).
Proof.
  destruct (calc_row_cells r0) as (a & bs & _ & _ & Hbs & _ & Hs & _).
  rewrite Hs. cbn [num_of]. f_equal.
  assert (num_of <$> (CNum <$> bs) = bs) as Hid.
  { clear. induction bs as [|b bs IH]; [done|]. cbn. by f_equal. }
  by rewrite <- Hid, <- Hbs, <- list_fmap_compose.
Qed.


Lemma descending_take by_ n (l : list (gmap string cell)) :
  descending by_ l → descending by_ (take n l).
Proof.
  revert n. induction l as [|x l IH]; intros [|n] Hs; cbn;
    try by constructor.
  apply StronglySorted_inv in Hs as [Hs Hall]. constructor; [by apply IH|].
  apply Forall_forall. intros y Hy%subseteq_take.
  by eapply (proj1 (Forall_forall _ _)) in Hall.
Qed.

(** The top ten: the table shows at most ten rows of the aging frame, in
    descending order of the amount over 90 days, and no row left out has
    more over 90 days than a row shown. *)
Theorem overview_top10 st wb :
  uploaded_file st = Some wb →
  page st = "Overview Dashboard" →
  calculated_frame (ar_df st) →
  ∃ v shown rest,
    overview_dashboard st = Done (Some v) ∧
    (shown ++ rest)%list ≡ₚ rows (ar_df st) ∧
    length shown = min 10 (length (rows (ar_df st))) ∧
    rows (top10 v) =
      restrict ["Customer Name"; "Executive Name"; "Total Outstanding";
                ">90 Days"] <$> shown ∧
    descending ">90 Days" shown ∧
    ∀ x y, x ∈ shown → y ∈ rest →
           (key ">90 Days" y <= key ">90 Days" x)%Q.
Proof.
  intros Hup Hpage Hcf.
  destruct (overview_dashboard_Done st wb Hup Hpage Hcf)
    as (l & Hp & Hs & ->).
  eexists _, (take 10 l), (drop 10 l). split; [done|].
  split; [by rewrite take_drop|].
  split; [by rewrite length_take, Hp|].
  split; [done|]. split; [by apply descending_take|].
  by apply descending_take_drop.
Qed.

(** ** Lines 187-212: the drilldown *)

Lemma numbers_nontext (s : Series) :
  (∀ c, c ∈ s → is_str c = false) → ∃ l, numbers s = Done l.
Proof.
  induction s as [|c s IH]; intros Hs; [by eexists|].
  destruct IH as [l Hl]; [intros x Hx; apply Hs; by right|].
  specialize (Hs c ltac:(by left)).
  destruct c; cbn in *; [|done|]; rewrite Hl; by eexists.
Qed.

Lemma length_unique_from seen (s : Series) :
  (length (unique_from seen s) ≤ length s)%nat.
Proof.
  revert seen. induction s as [|x s IH]; intros seen; cbn; [done|].
  destruct (existsb _ _); cbn; [|apply le_n_S]; etrans; try apply IH; lia.
Qed.

Lemma nunique_le (s : Series) : (nunique s ≤ length s)%nat.
Proof.
  unfold nunique, unique. etrans; [apply length_unique_from|].
  unfold dropna. apply length_filter.
Qed.

Lemma selectbox_elem (options : list cell) choice :
  selectbox options choice ∈ options ∨
  (options = [] ∧ selectbox options choice = CNaN).
Proof.
  unfold selectbox. destruct (options !! choice) as [c|] eqn:E.
  - left. by eapply list_elem_of_lookup_2.
  - destruct options as [|c options]; [by right|]. left. by left.
Qed.


(** ** Lines 166-168: the totals by executive *)

Lemma numbers_nums (s : Series) :
  (∀ c, c ∈ s → is_str c = false) → numbers s = Done (nums s).
Proof.
  induction s as [|c s IH]; intros Hs; [done|].
  specialize (IH (λ x Hx, Hs x ltac:(by right))).
  specialize (Hs c ltac:(by left)).
  destruct c; cbn in *; [|done|]; by rewrite IH.
Qed.

Lemma Qsum_nums (s : Series) : (Qsum (nums s) == Qsum (num_of <$> s))%Q.
Proof.
  induction s as [|c s IH]; [apply Qeq_refl|]. rewrite fmap_cons.
  pose proof (Qsum_cons (num_of c) (num_of <$> s)).
  destruct c as [q| |]; cbn [nums omap list_omap num_of] in *;
    fold (nums s).
  - pose proof (Qsum_cons q (nums s)). lra.
  - lra.
  - lra.
Qed.

(** One term of a sum over distinct keys. *)
Lemma Qsum_indicator (ks : list string) n (a : Q) :
  NoDup ks → n ∈ ks →
  (Qsum ((λ k, if decide (k = n) then a else 0) <$> ks) == a)%Q.
Proof.
  induction 1 as [|k ks Hk Hnd IH]; intros Hn; [by apply elem_of_nil in Hn|].
  rewrite fmap_cons.
  pose proof (Qsum_cons (if decide (k = n) then a else 0)
                ((λ k, if decide (k = n) then a else 0%Q) <$> ks)) as H1.
  destruct (decide (k = n)) as [->|Hne].
  - assert (Qsum ((λ k, if decide (k = n) then a else 0%Q) <$> ks) == 0)%Q.
    { etransitivity; [|apply (Qsum_fmap_zero ks)].
      apply Qsum_fmap_ext. intros k Hk'.
      rewrite decide_False by congruence. apply Qeq_refl. }
    lra.
  - apply elem_of_cons in Hn as [->|Hn]; [done|]. specialize (IH Hn). lra.
Qed.

(** The sums of the groups add up to the sum over the rows that have one
    of the keys. *)
Lemma Qsum_groups (name : gmap string cell → cell) (v : gmap string cell → Q)
    (ks : list string) (rs : list (gmap string cell)) :
  NoDup ks →
  (Qsum ((λ k, Qsum (v <$> filter (λ r, name r = CStr k) rs)) <$> ks) ==
   Qsum (v <$> filter (λ r, name r ∈ (CStr <$> ks)) rs))%Q.
Proof.
  intros Hnd. induction rs as [|r rs IH].
  - etransitivity; [apply (Qsum_fmap_zero ks)|]. by vm_compute.
  - destruct (decide (name r ∈ (CStr <$> ks))) as [Hin|Hout].
    + rewrite (filter_cons_True (λ r, name r ∈ (CStr <$> ks))) by done.
      rewrite fmap_cons.
      pose proof (Qsum_cons (v r)
        (v <$> filter (λ r, name r ∈ (CStr <$> ks)) rs)) as H1.
      apply list_elem_of_fmap in Hin as (n & Hn & Hnk).
      pose proof (Qsum_indicator ks n (v r) Hnd Hnk) as H2.
      pose proof (Qsum_fmap_plus
        (λ k, if decide (k = n) then v r else 0%Q)
        (λ k, Qsum (v <$> filter (λ r, name r = CStr k) rs)) ks) as H3.
      cbv beta in H3.
      assert (Qsum ((λ k, Qsum (v <$> filter (λ r0, name r0 = CStr k)
                                        (r :: rs))) <$> ks) ==
              Qsum ((λ k, (if decide (k = n) then v r else 0) +
                          Qsum (v <$> filter (λ r, name r = CStr k) rs))
                    <$> ks))%Q as H4.
      { apply Qsum_fmap_ext. intros k _.
        destruct (decide (k = n)) as [->|Hne].
        - rewrite filter_cons_True by done. rewrite fmap_cons.
          apply Qsum_cons.
        - rewrite filter_cons_False by congruence. lra. }
      lra.
    + rewrite (filter_cons_False (λ r, name r ∈ (CStr <$> ks))) by done.
      etransitivity; [|exact IH].
      apply Qsum_fmap_ext. intros k Hk.
      rewrite filter_cons_False; [apply Qeq_refl|].
      intros E. apply Hout. rewrite E. by apply list_elem_of_fmap_2.
Qed.

Lemma filter_iff_elem {A} (P1 P2 : A → Prop)
    `{∀ x, Decision (P1 x)} `{∀ x, Decision (P2 x)} (l : list A) :
  (∀ x, x ∈ l → P1 x ↔ P2 x) → filter P1 l = filter P2 l.
Proof.
  induction l as [|x l IH]; intros Hl; [done|].
  rewrite !filter_cons. rewrite IH by (intros y Hy; apply Hl; by right).
  destruct (decide (P1 x)) as [H1|H1], (decide (P2 x)) as [H2|H2]; try done.
  - exfalso. by apply H2, (Hl x ltac:(by left)).
  - exfalso. by apply H1, (Hl x ltac:(by left)).
Qed.

Lemma sorted_unique_text (s : Series) :
  (∀ c, c ∈ s → c = CNaN ∨ ∃ n, c = CStr n) →
  ∃ names : list string,
    sorted (unique (dropna s)) = Done (CStr <$> names) ∧
    NoDup names ∧ ∀ n, n ∈ names ↔ CStr n ∈ s.
Proof.
  intros Hs.
  assert (all_text (dropna s)) as Ht.
  { intros c [Hc Hna]%elem_of_dropna. by destruct (Hs c Hc). }
  destruct (unique_from_text [] (dropna s) Ht) as (Htu & Hnd & Hin).
  fold (unique (dropna s)) in Htu, Hnd, Hin.
  destruct (sort_into_text [] (unique (dropna s))) as (l & Hsort & Hp);
    [by intros ? ?%elem_of_nil|done|].
  cbn [app] in Hp. destruct (all_text_names l) as [names ->].
  { intros c Hc. apply Htu. by rewrite <- Hp. }
  exists names. split; [done|]. split.
  { rewrite <- Hp in Hnd. by apply NoDup_fmap_1 in Hnd. }
  intros n. rewrite <- (list_elem_of_fmap_inj CStr).
  rewrite Hp, Hin, elem_of_dropna. split.
  - by intros [[? _] _].
  - intros Hn. split; [done|]. by intros ?%elem_of_nil.
Qed.

Lemma lookup_list_to_map_fmap (f : string → cell) (cols : list string) k :
  (list_to_map ((λ c, (c, f c)) <$> cols) : gmap string cell) !! k =
  if decide (k ∈ cols) then Some (f k) else None.
Proof.
  induction cols as [|c cols IH]; cbn.
  - by rewrite lookup_empty.
  - rewrite lookup_insert, IH. elem_cases.
Qed.

(** The totals by group, on a frame whose keys are names or blanks and
    whose summed columns hold no text. *)
Lemma groupby_sum_frame df by_ cols :
  by_ ∈ columns df → cols ⊆ columns df → by_ ∉ cols →
  (∀ r, r ∈ rows df →
        (cell_of r by_ = CNaN ∨ ∃ n, cell_of r by_ = CStr n) ∧
        ∀ c, c ∈ cols → is_str (cell_of r c) = false) →
  ∃ chart names,
    groupby_sum df by_ cols = Done chart ∧
    columns chart = by_ :: cols ∧
    (λ g, cell_of g by_) <$> rows chart = CStr <$> names ∧
    NoDup names ∧
    (∀ n, n ∈ names ↔ ∃ r, r ∈ rows df ∧ cell_of r by_ = CStr n) ∧
    ∀ c, c ∈ cols →
      (Qsum (key c <$> rows chart) ==
       Qsum (key c <$> filter (λ r, cell_of r by_ ≠ CNaN) (rows df)))%Q.
Proof.
  intros Hby Hcols Hfresh Hcells. unfold groupby_sum.
  rewrite get_col_Done by done. cbn [mbind outcome_bind].
  rewrite (get_cols_Done _ _ Hcols). cbn [mbind outcome_bind].
  destruct (sorted_unique_text (col_values df by_)) as (names & -> & Hnd & Hin).
  { intros c (r & -> & Hr)%list_elem_of_fmap. by apply Hcells. }
  cbn [mbind outcome_bind].
  set (total := λ (n : string) (c : string),
    Qsum (nums ((λ r, cell_of r c) <$> group_rows df by_ (CStr n)))).
  set (grow := λ n : string,
    (list_to_map ((by_, CStr n) :: ((λ c, (c, CNum (total n c))) <$> cols))
      : gmap string cell)).
  assert (mapM (group_sum df by_ cols) (CStr <$> names) =
          Done (grow <$> names)) as ->.
  { rewrite (mapM_Done _ (λ k, match k with
                               | CStr n => grow n | _ => ∅ end)).
    - by rewrite <- list_fmap_compose.
    - intros k (n & -> & _)%list_elem_of_fmap. unfold group_sum.
      rewrite (mapM_Done _ (λ c, (c, CNum (total n c)))); [done|].
      intros c Hc. unfold series_sum. rewrite numbers_nums; [done|].
      intros x (r & -> & [_ Hr]%list_elem_of_filter)%list_elem_of_fmap.
      by apply Hcells. }
  cbn [mbind outcome_bind mret outcome_ret].
  exists {| columns := by_ :: cols; rows := grow <$> names |}, names.
  split; [done|]. split; [done|]. cbn [rows].
  assert (∀ n, cell_of (grow n) by_ = CStr n) as Hgby.
  { intros n. unfold grow, cell_of. cbn [list_to_map foldr].
    by rewrite lookup_insert, decide_True. }
  assert (∀ n c, c ∈ cols → cell_of (grow n) c = CNum (total n c)) as Hgc.
  { intros n c Hc. unfold grow, cell_of. cbn [list_to_map foldr fst snd].
    rewrite lookup_insert, decide_False by (intros ->; done).
    fold (list_to_map (M := gmap string cell)
            ((λ c, (c, CNum (total n c))) <$> cols)).
    by rewrite (lookup_list_to_map_fmap (λ c, CNum (total n c))), decide_True. }
  split.
  { rewrite <- list_fmap_compose. apply list_fmap_ext. intros i n _.
    apply Hgby. }
  split; [done|]. split.
  { intros n. rewrite Hin. unfold col_values. rewrite list_elem_of_fmap.
    split; [intros (r & ? & ?); by exists r|intros (r & ? & ?); by exists r]. }
  intros c Hc. rewrite <- list_fmap_compose.
  pose proof (Qsum_groups (λ r, cell_of r by_) (key c) names (rows df) Hnd)
    as Hg. cbv beta in Hg.
  eapply Qeq_trans; [|eapply Qeq_trans; [exact Hg|]].
  - apply Qsum_fmap_ext. intros n _. unfold compose, key.
    rewrite Hgc by done. unfold total.
    eapply Qeq_trans; [apply Qsum_nums|].
    rewrite <- list_fmap_compose. unfold group_rows.
    rewrite (list_filter_iff _ (λ r, cell_of r by_ = CStr n));
      [apply Qeq_refl|].
    intros r. apply cell_eqb_CStr.
  - rewrite (filter_iff_elem _ (λ r, cell_of r by_ ≠ CNaN));
      [apply Qeq_refl|].
    intros r Hr. split.
    + intros (n & -> & _)%list_elem_of_fmap. done.
    + intros Hne. destruct (Hcells r Hr) as [[?|[n Hn]] _]; [done|].
      rewrite Hn. apply list_elem_of_fmap_2, Hin. rewrite <- Hn.
      by apply (list_elem_of_fmap_2 (λ r, cell_of r by_)).
Qed.

Lemma executive_performance_columns st st' wb :
  uploaded_file st = Some wb →
  page st = "Executive Performance" →
  executive_performance st = Done st' →
  columns (exec_df st') =
  add_column (add_column (columns (exec_df st)) "Pending") "Achievement %".
Proof.
  intros Hup Hpage. unfold executive_performance.
  rewrite Hup, decide_True by done.
  repeat match goal with
  | |- mbind _ ?m = _ → _ =>
      destruct m; cbn [mbind outcome_bind]; try discriminate
  end.
  cbn [mret outcome_ret]. by intros [= <-].
Qed.

Lemma filter_fmap_rows (P : gmap string cell → Prop)
    `{∀ r, Decision (P r)} (f : gmap string cell → gmap string cell)
    (rs : list (gmap string cell)) :
  filter P (f <$> rs) = f <$> filter (λ r, P (f r)) rs.
Proof.
  induction rs as [|r rs IH]; [done|]. rewrite fmap_cons, !filter_cons, IH.
  by destruct (decide (P (f r))).
Qed.


(** ** Lines 102-105: a sheet without the executive column *)


End Pipeline.

(** * The pipeline on the sample uploads *)

(** The example of the specification: amount 0 and buckets
    [100, 0, 0, 200, 0, 0, 0, 0] give 300 outstanding and 200 over 90
    days. *)
Example spec_example_totals :
  records <$> calculations parse_digits spec_example_aging =
  Done [[("Customer Name", CStr "Acme"); ("Executive Name", CStr "Bob");
         ("Amount", CNum 0); ("0-30", CNum 100); ("31-60", CNum 0);
         ("61-90", CNum 0); ("91-120", CNum 200); ("121-150", CNum 0);
         ("151-180", CNum 0); ("181-365", CNum 0); ("Above 365", CNum 0);
         ("Aging Sum", CNum 300); ("Total Outstanding", CNum 300);
         (">90 Days", CNum 200)]].
Proof. by vm_compute. Qed.

(** Text that spells a number is read, other text and blanks become 0. *)
Example coercion_example :
  records <$> coerce_numeric parse_digits example_aging =
  Done [[("Customer Name", CStr "Acme"); ("Executive Name", CStr "Bob");
         ("Amount", CNum 0); ("0-30", CNum 100); ("31-60", CNum 0);
         ("61-90", CNum 0); ("91-120", CNum 200); ("121-150", CNum 0);
         ("151-180", CNum 0); ("181-365", CNum 0); ("Above 365", CNum 0)];
        [("Customer Name", CStr "Zenith"); ("Executive Name", CStr "Asha");
         ("Amount", CNum 0); ("0-30", CNum 10); ("31-60", CNum 20);
         ("61-90", CNum 0); ("91-120", CNum 0); ("121-150", CNum 5);
         ("151-180", CNum 0); ("181-365", CNum 0); ("Above 365", CNum 0)]].
Proof. by vm_compute. Qed.

Example selector_example :
  executives example_aging = Done [CStr "All"; CStr "Asha"; CStr "Bob"].
Proof. by vm_compute. Qed.

Example missing_61_90_example :
  pipeline parse_digits
    (session (workbook aging_without_61_90 example_targets example_invoices)
             "Jan-2026" "Overview Dashboard" 0) =
  Stopped (st_error "❌ Missing column in AR_Aging: 61-90").
Proof. by vm_compute. Qed.

Example performance_example :
  (λ st, records (exec_df st)) <$> executive_performance performance_session =
  Done [[("Executive Name", CStr "Bob"); ("Target Amount", CNum 1000);
         ("Actual Collected", CNum 250); ("Pending", CNum 750);
         ("Achievement %", CNum (25000 # 1000))];
        [("Executive Name", CStr "Asha"); ("Target Amount", CNum 0);
         ("Actual Collected", CNum 70); ("Pending", CNum (-70));
         ("Achievement %", CNum 0)];
        [("Executive Name", CStr "Chen"); ("Target Amount", CNaN);
         ("Actual Collected", CNum 30); ("Pending", CNaN);
         ("Achievement %", CNum 0)]].
Proof. by vm_compute. Qed.

(** ** The theorems at the sample uploads *)








Lemma executive_filter_spec_witness :
  apply_filter (CStr "All") (example_aging, example_targets, example_invoices)
    = Done (example_aging, example_targets, example_invoices) ∧
  ∃ ar' ex' inv',
    apply_filter (CStr "Bob")
      (example_aging, example_targets, example_invoices)
      = Done (ar', ex', inv') ∧
    is_filter_of "Bob" example_aging ar' ∧
    is_filter_of "Bob" example_targets ex' ∧
    is_filter_of "Bob" example_invoices inv'.
Proof.
  destruct (executive_filter_spec "Bob" example_aging example_targets
              example_invoices) as [Hall Hname].
  split; [exact Hall|]. apply Hname.
  - discriminate.
  - apply (bool_decide_unpack _). vm_compute. exact I.
  - apply (bool_decide_unpack _). vm_compute. exact I.
  - apply (bool_decide_unpack _). vm_compute. exact I.
Defined.

Lemma executive_options_spec_witness :
  ∃ names : list string,
    executives example_aging = Done (CStr "All" :: (CStr <$> names)) ∧
    NoDup names ∧
    (∀ n, n ∈ names ↔
          ∃ r, r ∈ rows example_aging ∧
               cell_of r "Executive Name" = CStr n) ∧
    (∀ c, c ∈ CStr "All" :: (CStr <$> names) →
          ∃ i, selectbox (CStr "All" :: (CStr <$> names)) i = c).
Proof.
  apply (executive_options_spec example_aging).
  - apply (bool_decide_unpack _). vm_compute. exact I.
  - intros r Hr. right.
    apply elem_of_cons in Hr as [->|Hr]; [exists "Bob"; by vm_compute|].
    apply elem_of_cons in Hr as [->|Hr]; [exists "Asha"; by vm_compute|].
    by apply elem_of_nil in Hr.
Defined.

(** C9 as stated fails: "Chen" is an executive of the uploaded targets
    sheet, has no row in the aging sheet, and is not among the options the
    pipeline builds for this upload. *)
Lemma selector_omits_targets_name_counterexample :
  CStr "Chen" ∈ col_values example_targets "Executive Name" ∧
  (ar ← calculations parse_digits
         (set_scalar (strip_columns example_aging) "Month" (CStr "Jan-2026"));
   executives ar) = Done [CStr "All"; CStr "Asha"; CStr "Bob"] ∧
  CStr "Chen" ∉ [CStr "All"; CStr "Asha"; CStr "Bob"].
Proof.
  split; [|split].
  - apply (bool_decide_unpack _). by vm_compute.
  - by vm_compute.
  - apply (bool_decide_unpack _). by vm_compute.
Qed.

(** ** The further properties at the sample uploads *)

Ltac sample_rows :=
  apply Forall_forall;
  repeat first [ apply Forall_nil_2 | apply Forall_cons_2 ].

Ltac blank_or_text :=
  first [ left; reflexivity | right; eexists; reflexivity ].

Ltac decided := apply (bool_decide_unpack _); vm_compute; exact I.

Ltac subset_decided :=
  let x := fresh in
  let H := fresh in
  intros x H; revert x H; apply Forall_forall; decided.

Lemma validate_first_missing_witness :
  validate aging_without_61_90 required_ar_cols =
  Stopped (st_error "❌ Missing column in AR_Aging: 61-90").
Proof.
  apply (validate_first_missing aging_without_61_90
           ["Customer Name"; "Executive Name"; "Amount"; "0-30"; "31-60"]
           "61-90"
           ["91-120"; "121-150"; "151-180"; "181-365"; "Above 365"]).
  - subset_decided.
  - decided.
Defined.

Lemma pipeline_read_error_witness :
  pipeline parse_digits
    (session (list_to_map [("AR_Aging", example_aging);
                           ("Executive_Targets", example_targets)])
             "Jan-2026" "Overview Dashboard" 0) =
  Stopped (st_error "❌ Error reading Excel. Check sheet names.").
Proof.
  eapply pipeline_read_error; [reflexivity|].
  right; right. vm_compute. reflexivity.
Defined.




Lemma pipeline_month_stamped_witness :
  Forall (λ r, cell_of r "Month" = CStr "Jan-2026")
    (rows (calculated parse_digits (loaded "Jan-2026" example_aging)) ++
     rows (loaded "Jan-2026" example_targets) ++
     rows (loaded "Jan-2026" example_invoices))%list.
Proof.
  apply Forall_forall.
  apply (pipeline_month_stamped parse_digits
           (session (workbook example_aging example_targets example_invoices)
                    "Jan-2026" "Overview Dashboard" 0)
           (with_frames
              (session (workbook example_aging example_targets
                                 example_invoices)
                       "Jan-2026" "Overview Dashboard" 0)
              (calculated parse_digits (loaded "Jan-2026" example_aging))
              (loaded "Jan-2026" example_targets)
              (loaded "Jan-2026" example_invoices))
           (workbook example_aging example_targets example_invoices)).
  - reflexivity.
  - vm_compute. reflexivity.
Defined.



Lemma executives_ascending_witness :
  ∃ names : list string,
    executives example_aging = Done (CStr "All" :: (CStr <$> names)) ∧
    Sorted (λ a b, String.ltb a b = true) names.
Proof.
  apply (executives_ascending example_aging).
  - decided.
  - sample_rows; blank_or_text.
Defined.


Lemma calculations_twice_witness :
  ∃ df1 df2,
    calculations parse_digits example_aging = Done df1 ∧
    calculations parse_digits df1 = Done df2 ∧
    columns df2 = columns df1 ∧ records df2 = records df1.
Proof.
  apply (calculations_twice parse_digits example_aging). reflexivity.
Defined.


Lemma action_tracker_spec_witness :
  ∃ overdue_df styles,
    action_tracker
      (with_frames
         (session (workbook example_aging example_targets example_invoices)
                  "Jan-2026" "Action Tracker" 0)
         example_aging example_targets example_invoices) =
      Done (Some (overdue_df, styles)) ∧
    length (rows overdue_df) = 1 ∧
    styles = [replicate 7 ""].
Proof.
  destruct (action_tracker_spec
              (with_frames
                 (session (workbook example_aging example_targets
                                    example_invoices)
                          "Jan-2026" "Action Tracker" 0)
                 example_aging example_targets example_invoices)
              (workbook example_aging example_targets example_invoices))
    as (overdue_df & styles & Hrun & _ & Hrows & Hstyles & _).
  - reflexivity.
  - reflexivity.
  - decided.
  - exists overdue_df, styles. split; [exact Hrun|].
    rewrite Hstyles, Hrows. split; vm_compute; reflexivity.
Defined.




Lemma overview_top10_witness :
  ∃ v shown,
    overview_dashboard
      (with_frames
         (session (workbook example_aging example_targets example_invoices)
                  "Jan-2026" "Overview Dashboard" 0)
         (calculated parse_digits (loaded "Jan-2026" example_aging))
         (loaded "Jan-2026" example_targets)
         (loaded "Jan-2026" example_invoices)) = Done (Some v) ∧
    length shown = 2 ∧
    rows (top10 v) =
      restrict ["Customer Name"; "Executive Name"; "Total Outstanding";
                ">90 Days"] <$> shown ∧
    descending ">90 Days" shown.
Proof.
  destruct (overview_top10 parse_digits
              (with_frames
                 (session (workbook example_aging example_targets
                                    example_invoices)
                          "Jan-2026" "Overview Dashboard" 0)
                 (calculated parse_digits (loaded "Jan-2026" example_aging))
                 (loaded "Jan-2026" example_targets)
                 (loaded "Jan-2026" example_invoices))
              (workbook example_aging example_targets example_invoices))
    as (v & shown & rest & Hrun & _ & Hlen & Hrows & Hdesc & _).
  - reflexivity.
  - reflexivity.
  - apply calculated_frame_calculated. subset_decided.
  - exists v, shown. split; [exact Hrun|]. split; [exact Hlen|].
    split; [exact Hrows|exact Hdesc].
Defined.


